(** * kerncraft: the benchmark model ([kerncraft/models/benchmark.py])

    A shallow embedding of the register descriptor expander
    ([group_iterator], [register_options]), the event string renderer
    ([eventstr]), the minimal run scheduler ([build_minimal_runs]), the
    output parser of [Benchmark.perfctr] and the calibration and symbol
    matching loops of [Benchmark.analyze], followed by the properties
    established for them.

    Conventions of the embedding.
    - A Python [str] is a [string]; its characters are restricted to the
      256 code points of [ascii].
    - A Python [int] is a [Z], a Python [float] is a primitive binary64
      [float].
    - A Python generator is the finite trace of the values it yields
      together with the way its enumeration ends ([generator]).
    - A raised exception is a value of [exn]; code that may raise lives
      in the [result] monad.
    - A dictionary that is only looked up is a [gmap]; one whose
      iteration order reaches the output is an association list. *)

From Stdlib Require Import ZArith Ascii String List Floats Lia Permutation.
From stdpp Require Import base option list gmap strings sorting.

Set Warnings "-inexact-float".

(** ** Exceptions and results *)

(** The built-in exceptions the modelled code can raise.  The module
    defines no exception class of its own. *)
Inductive exn : Set :=
  | AttributeError
  | IndexError
  | KeyError
  | OverflowError
  | RecursionError
  | SystemExit
  | TypeError
  | ValueError
  | ZeroDivisionError.

Global Instance exn_eq_dec : EqDecision exn.
Proof. solve_decision. Defined.

Inductive result (A : Type) : Type :=
  | Ok (a : A)
  | Raise (e : exn).
Arguments Ok {A} a.
Arguments Raise {A} e.

Global Instance result_ret : MRet result := @Ok.
Global Instance result_bind : MBind result := λ A B k r,
  match r with
  | Ok a => k a
  | Raise e => Raise e
  end.

(** A loop of the source that has no bound is run on fuel; [Spinning]
    is the verdict on a run that is still looping when the fuel is
    spent. *)
Inductive outcome (A : Type) : Type :=
  | Returned (a : A)
  | Raised (e : exn)
  | Spinning.
Arguments Returned {A} a.
Arguments Raised {A} e.
Arguments Spinning {A}.

Global Instance outcome_ret : MRet outcome := @Returned.
Global Instance outcome_bind : MBind outcome := λ A B k o,
  match o with
  | Returned a => k a
  | Raised e => Raised e
  | Spinning => Spinning
  end.

(** A computation that needs no fuel, seen as one that may need some. *)
Definition lift_result {A : Type} (r : result A) : outcome A :=
  match r with
  | Ok a => Returned a
  | Raise e => Raised e
  end.

(** ** Generators *)

(** How the enumeration of a generator ends: by running off the end of
    its body, by an exception, or (for the fuelled recursion only) not
    within the fuel. *)
Inductive ending : Set :=
  | StopIteration
  | Raises (e : exn)
  | Unfinished.

Record generator (A : Type) : Type := Gen {
  yielded : list A;
  finish : ending
}.
Arguments Gen {A} yielded finish.
Arguments yielded {A} g.
Arguments finish {A} g.

Definition gen_nil {A : Type} : generator A := Gen [] StopIteration.
Definition gen_yield {A : Type} (x : A) : generator A := Gen [x] StopIteration.
Definition gen_raise {A : Type} (e : exn) : generator A := Gen [] (Raises e).
Definition gen_of_list {A : Type} (l : list A) : generator A := Gen l StopIteration.

(** Sequential composition of two pieces of a generator body: the second
    piece runs only if the first one ran to its end. *)
Definition gen_seq {A : Type} (g1 g2 : generator A) : generator A :=
  match finish g1 with
  | StopIteration => Gen (yielded g1 ++ yielded g2) (finish g2)
  | _ => g1
  end.

(** [for x in l: body(x)] inside a generator body. *)
Fixpoint gen_for {A B : Type} (l : list B) (body : B → generator A) : generator A :=
  match l with
  | [] => gen_nil
  | x :: l' => gen_seq (body x) (gen_for l' body)
  end.

(** [for x in g: body(x)] where [g] is itself a generator: the body runs
    for each value [g] yields, then [g]'s own ending takes effect. *)
Definition gen_for_gen {A B : Type} (g : generator B) (body : B → generator A)
  : generator A :=
  gen_seq (gen_for (yielded g) body) (Gen [] (finish g)).

(** ** Characters and strings *)

Definition char (c : ascii) : string := String c EmptyString.

Definition ascii_between (lo hi c : ascii) : bool :=
  (nat_of_ascii lo <=? nat_of_ascii c)%nat && (nat_of_ascii c <=? nat_of_ascii hi)%nat.

(** The character class [[a-zA-Z0-9]]. *)
Definition is_alnum (c : ascii) : bool :=
  ascii_between "a" "z" c || ascii_between "A" "Z" c || ascii_between "0" "9" c.

Definition newline : ascii := "010"%char.

(** The regular expression [.] (without DOTALL): any character but a
    newline. *)
Definition is_dot (c : ascii) : bool := negb (Ascii.eqb c newline).

(** [s.index(c)] on a string: the first position of [c], if any. *)
Fixpoint str_index (c : ascii) (s : string) : option nat :=
  match s with
  | EmptyString => None
  | String d s' => if Ascii.eqb c d then Some 0%nat else S <$> str_index c s'
  end.

(** [s[i]] for an index within the string. *)
Fixpoint str_get (i : nat) (s : string) : option ascii :=
  match s, i with
  | EmptyString, _ => None
  | String c _, O => Some c
  | String _ s', S i' => str_get i' s'
  end.

(** [s.split(sep)] for a one-character separator. *)
Fixpoint split (sep : ascii) (s : string) : list string :=
  match s with
  | EmptyString => [EmptyString]
  | String c s' =>
      if Ascii.eqb c sep then EmptyString :: split sep s'
      else match split sep s' with
           | h :: t => String c h :: t
           | [] => [char c]
           end
  end.

(** [sep.join(l)]. *)
Fixpoint join (sep : string) (l : list string) : string :=
  match l with
  | [] => EmptyString
  | [x] => x
  | x :: l' => x +:+ sep +:+ join sep l'
  end.

(** ** The register descriptor expander *)

(** [string.ascii_letters + string.digits] *)
Definition ordered_chars : string :=
  "abcdefghijklmnopqrstuvwxyzABCDEFGHIJKLMNOPQRSTUVWXYZ0123456789".

(** [range(a, b)] *)
Definition range (a b : nat) : list nat := seq a (b - a).

(** The body of the [seq] branch of [group_iterator]: the characters of
    [ordered_chars] from [start] to [end], both looked up by [index]. *)
Definition group_range (start stop : ascii) : generator string :=
  match str_index start ordered_chars, str_index stop ordered_chars with
  | Some i, Some j =>
      gen_for (range i (j + 1)) (λ k,
        match str_get k ordered_chars with
        | Some c => gen_yield (char c)
        | None => gen_raise IndexError
        end)
  | _, _ => gen_raise ValueError
  end.

(** [group_iterator(group)].  [re.finditer] scans the group from left to
    right; at each position the tokenizer prefers a three character
    range [x-y] with alphanumeric ends, falls back on a single character
    matched by [.], and skips a character that [.] does not match. *)
Fixpoint group_iterator (group : string) : generator string :=
  match group with
  | EmptyString => gen_nil
  | String c rest =>
      let single :=
        gen_seq (if is_dot c then gen_yield (char c) else gen_nil)
                (group_iterator rest) in
      match rest with
      | String "-" (String d rest') =>
          if is_alnum c && is_alnum d
          then gen_seq (group_range c d) (group_iterator rest')
          else single
      | _ => single
      end
  end.

(** What [re.match(tokenizer, u)] finds at the start of [u] in
    [register_options]: a bracketed group or a single character. *)
Inductive token : Set :=
  | Grp (grp : string)
  | Chr (chr : ascii).

(** The longest prefix without a closing bracket, and what follows it. *)
Fixpoint span_group (s : string) : string * string :=
  match s with
  | EmptyString => (EmptyString, EmptyString)
  | String c s' =>
      if Ascii.eqb c "]" then (EmptyString, s)
      else let '(g, r) := span_group s' in (String c g, r)
  end.

(** [m = re.match(tokenizer, u)] together with [u[m.end():]]; [None]
    when the pattern does not match at the start of [u]. *)
Definition match_token (u : string) : option (token * string) :=
  match u with
  | EmptyString => None
  | String c u' =>
      let chr := if is_dot c then Some (Chr c, u') else None in
      if Ascii.eqb c "["
      then match span_group u' with
           | (String g0 g, String _ after) => Some (Grp (String g0 g), after)
           | _ => chr
           end
      else chr
  end.

(** [c + r] for a string [c] and a yielded value [r]. *)
Definition str_add (c : string) (r : option string) : generator (option string) :=
  match r with
  | Some r' => gen_yield (Some (c +:+ r'))
  | None => gen_raise TypeError
  end.

(** [register_options(regdescr)], on fuel for the recursion on the rest
    of an alternative. *)
Fixpoint register_options_fuel (fuel : nat) (regdescr : string)
  : generator (option string) :=
  match fuel with
  | O => Gen [] Unfinished
  | S fuel' =>
      gen_seq
        (if regdescr is EmptyString then gen_yield None else gen_nil)
        (gen_for (split "|" regdescr) (λ u,
           match match_token u with
           | None => gen_raise AttributeError
           | Some (tok, rest) =>
               let current :=
                 match tok with
                 | Grp grp => group_iterator grp
                 | Chr chr => gen_of_list [char chr]
                 end in
               gen_for_gen current (λ c,
                 if rest is EmptyString then gen_yield (Some c)
                 else gen_for_gen (register_options_fuel fuel' rest) (str_add c))
           end))
  end.

Definition register_options (regdescr : string) : generator (option string) :=
  register_options_fuel (S (String.length regdescr)) regdescr.

(** What an enumeration comes to when the interpreter runs out of
    frames: the activation that does not fit raises [RecursionError],
    and that ends every enumeration around it. *)
Definition at_recursion_limit {A : Type} (g : generator A) : generator A :=
  Gen (yielded g)
      (match finish g with
       | Unfinished => Raises RecursionError
       | fin => fin
       end).

(** [register_options(regdescr)] in an interpreter that has room for
    [depth] nested activations of [register_options]. *)
Definition register_options_within (depth : nat) (regdescr : string)
  : generator (option string) :=
  at_recursion_limit (register_options_fuel depth regdescr).


(** How a [for] loop that runs a generator dry ends. *)
Definition end_of_loop {A : Type} (fin : ending) (a : A) : outcome A :=
  match fin with
  | StopIteration => Returned a
  | Raises e => Raised e
  | Unfinished => Spinning
  end.

(** ** Events and their rendering *)

(** The parameter dictionary of an event: names to an [int] or [None].
    Dictionaries compare by content, whatever the insertion order. *)
Abbreviation params := (gmap string (option Z)).

(** An event as [build_minimal_runs] receives it:
    [(event, registers, parameters)] with a register descriptor. *)
Abbreviation event_tpl := (string * string * option params)%type.

(** An event as a run holds it: [(event, possible_reg, parameters)] with
    one concrete register, or [None] for the marker of the empty
    descriptor.  A two element tuple [(event, register)] is the same as
    one with [None] for parameters. *)
Abbreviation run_entry := (string * option string * option params)%type.

Definition hex_digit (n : N) : ascii :=
  match str_get (N.to_nat n) "0123456789abcdef" with
  | Some c => c
  | None => "?"%char
  end.

Fixpoint hex_digits_fuel (fuel : nat) (n : N) (acc : string) : string :=
  match fuel with
  | O => acc
  | S fuel' =>
      let acc' := String (hex_digit (n mod 16)) acc in
      if (n / 16 =? 0)%N then acc' else hex_digits_fuel fuel' (n / 16) acc'
  end.

(** The digits of [n] in base sixteen, most significant first. *)
Definition hex_digits (n : N) : string :=
  hex_digits_fuel (S (N.to_nat (N.size n))) n EmptyString.

(** The built-in [hex(v)] on an [int]. *)
Definition hex (v : Z) : string :=
  (if (v <? 0)%Z then "-" else "") +:+ "0x" +:+ hex_digits (Z.abs_N v).

(** [sorted(d.items())]: the keys of a dictionary are distinct, so the
    tuples are ordered by key alone, in the order of [str]. *)
Definition item_le (x y : string * option Z) : Prop :=
  String.leb x.1 y.1 = true.

Global Instance item_le_dec : RelDecision item_le.
Proof. intros x y. unfold item_le. apply _. Defined.

Definition sorted_items (d : params) : list (string * option Z) :=
  merge_sort item_le (map_to_list d).

(** One parameter of the event string: [k], or [k=hex(v)] for an [int]. *)
Definition param_segment (kv : string * option Z) : string :=
  match kv.2 with
  | Some v => kv.1 +:+ "=" +:+ hex v
  | None => kv.1
  end.

(** [sep.join(l)] on a list that may hold [None]. *)
Definition str_join (sep : string) (l : list (option string)) : result string :=
  match mapM id l with
  | Some l' => Ok (join sep l')
  | None => Raise TypeError
  end.

(** [eventstr(event_tuple)] *)
Definition eventstr (event_tuple : run_entry) : result string :=
  let '(event, register, parameters) := event_tuple in
  let event_dscr := [Some event; register] in
  let event_dscr :=
    match parameters with
    | Some d =>
        if bool_decide (d = ∅) then event_dscr
        else event_dscr ++ (Some ∘ param_segment <$> sorted_items d)
    | None => event_dscr
    end in
  str_join ":" event_dscr.

(** ** Insertion-ordered dictionaries *)

Section dict.
Context {K V : Type} `{EqDecision K}.

Definition dict_keys (d : list (K * V)) : list K := d.*1.
Definition dict_values (d : list (K * V)) : list V := d.*2.

Fixpoint dict_get (k : K) (d : list (K * V)) : option V :=
  match d with
  | [] => None
  | (k', v) :: d' => if decide (k' = k) then Some v else dict_get k d'
  end.

(** [d[k] = v]: in place for a known key, at the end for a new one. *)
Fixpoint dict_set (k : K) (v : V) (d : list (K * V)) : list (K * V) :=
  match d with
  | [] => [(k, v)]
  | (k', v') :: d' =>
      if decide (k' = k) then (k, v) :: d' else (k', v') :: dict_set k v d'
  end.

(** The dictionary after [d.setdefault(k, v)]. *)
Definition dict_setdefault (k : K) (v : V) (d : list (K * V)) : list (K * V) :=
  match dict_get k d with
  | Some _ => d
  | None => d ++ [(k, v)]
  end.
End dict.

(** ** The minimal run scheduler *)

(** [scheduled_runs]: run index to register to entry; and the state of
    the scheduling loop, [(scheduled_runs, scheduled_events)]. *)
Abbreviation run_dict := (list (option string * run_entry)).
Abbreviation sched_state := (list (nat * run_dict) * list event_tpl)%type.

Section scheduler.
(** [l.index(e)] *)
Fixpoint list_index {A : Type} `{EqDecision A} (e : A) (l : list A) : option nat :=
  match l with
  | [] => None
  | x :: l' => if decide (x = e) then Some 0%nat else S <$> list_index e l'
  end.

Definition enumerate {A : Type} (l : list A) : list (nat * A) :=
  zip (seq 0 (length l)) l.

(** [[e for i, e in enumerate(events) if events.index(e) == i]] *)
Definition eliminate_multiples {A : Type} `{EqDecision A} (events : list A) : list A :=
  (filter (λ ie, list_index ie.2 events = Some ie.1) (enumerate events)).*2.

(** The loop over [register_options(registers)] for one event: the
    candidates still to come are [regs], and [fin] is how the
    enumeration ends after them. *)
Fixpoint try_registers (cur_run : nat) (event_tpl : event_tpl)
    (regs : list (option string)) (fin : ending) (st : sched_state)
  : outcome sched_state :=
  match regs with
  | [] => end_of_loop fin st
  | possible_reg :: regs' =>
      let '(event, registers, parameters) := event_tpl in
      let '(scheduled_runs, scheduled_events) := st in
      let scheduled_runs := dict_setdefault cur_run [] scheduled_runs in
      let s := default [] (dict_get cur_run scheduled_runs) in
      if decide (possible_reg ∈ dict_keys s)
      then try_registers cur_run event_tpl regs' fin (scheduled_runs, scheduled_events)
      else
        let s := dict_set possible_reg (event, possible_reg, parameters) s in
        Returned (dict_set cur_run s scheduled_runs,
                  scheduled_events ++ [event_tpl])
  end.

(** One pass of [for event_tpl in events] at run index [cur_run]. *)
Fixpoint sweep (cur_run : nat) (events : list event_tpl) (st : sched_state)
  : outcome sched_state :=
  match events with
  | [] => Returned st
  | event_tpl :: events' =>
      if decide (event_tpl ∈ st.2) then sweep cur_run events' st
      else
        let g := register_options event_tpl.1.2 in
        st' ← try_registers cur_run event_tpl (yielded g) (finish g) st;
        sweep cur_run events' st'
  end.

(** [while len(scheduled_events) != len(events)], on fuel. *)
Fixpoint schedule_loop (fuel : nat) (events : list event_tpl) (cur_run : nat)
    (st : sched_state) : outcome sched_state :=
  if decide (length st.2 = length events) then Returned st
  else match fuel with
       | O => Spinning
       | S fuel' =>
           st' ← sweep cur_run events st;
           schedule_loop fuel' events (S cur_run) st'
       end.

(** [build_minimal_runs(events)]; [fuel] bounds the number of sweeps. *)
Definition build_minimal_runs (fuel : nat) (events : list event_tpl)
  : outcome (list (list run_entry)) :=
  let events := eliminate_multiples events in
  st ← schedule_loop fuel events 0 ([], []);
  Returned (dict_values <$> dict_values st.1).
End scheduler.

(** The scheduler with [options] in the place of [register_options]:
    the same three loops over whatever enumerates the candidate
    registers of a descriptor. *)
Section scheduler_on.
Variable options : string → generator (option string).

Fixpoint sweep_on (cur_run : nat) (events : list event_tpl) (st : sched_state)
  : outcome sched_state :=
  match events with
  | [] => Returned st
  | event_tpl :: events' =>
      if decide (event_tpl ∈ st.2) then sweep_on cur_run events' st
      else
        let g := options event_tpl.1.2 in
        st' ← try_registers cur_run event_tpl (yielded g) (finish g) st;
        sweep_on cur_run events' st'
  end.

Fixpoint schedule_loop_on (fuel : nat) (events : list event_tpl) (cur_run : nat)
    (st : sched_state) : outcome sched_state :=
  if decide (length st.2 = length events) then Returned st
  else match fuel with
       | O => Spinning
       | S fuel' =>
           st' ← sweep_on cur_run events st;
           schedule_loop_on fuel' events (S cur_run) st'
       end.

Definition build_minimal_runs_on (fuel : nat) (events : list event_tpl)
  : outcome (list (list run_entry)) :=
  let events := eliminate_multiples events in
  st ← schedule_loop_on fuel events 0 ([], []);
  Returned (dict_values <$> dict_values st.1).
End scheduler_on.

(** [build_minimal_runs(events)] in an interpreter that has room for
    [depth] nested activations of [register_options]. *)
Definition build_minimal_runs_within (depth fuel : nat) (events : list event_tpl)
  : outcome (list (list run_entry)) :=
  build_minimal_runs_on (register_options_within depth) fuel events.

(** ** The output of the profiling tool *)

(** What a result dictionary binds a name to: the [float] of a derived
    metric, or the dictionary of raw counter values per register. *)
Inductive value : Type :=
  | VFloat (f : float)
  | VCounters (d : gmap string Z).

(** The built-in conversions and operators whose definition is outside
    the repository: [float(s)] and [int(s)] on a string ([None] where
    Python raises [ValueError]), and [a // b] on floats for a divisor
    other than zero. *)
Class Builtins := {
  py_float : string → option float;
  py_int : string → option Z;
  float_floordiv : float → float → float
}.

(** [re.fullmatch(r'[A-Z0-9_]+', s)] and [re.fullmatch(r'[A-Z0-9]+', s)] *)
Definition is_register_char (c : ascii) : bool :=
  ascii_between "A" "Z" c || ascii_between "0" "9" c.
Definition is_event_char (c : ascii) : bool :=
  is_register_char c || Ascii.eqb c "_".

Fixpoint str_forall (p : ascii → bool) (s : string) : bool :=
  match s with
  | EmptyString => true
  | String c s' => p c && str_forall p s'
  end.

Definition fullmatch_plus (p : ascii → bool) (s : string) : bool :=
  match s with
  | EmptyString => false
  | _ => str_forall p s
  end.

Section perfctr.
Context `{Builtins}.

(** The second [try] block of the loop body of [perfctr], for a line
    with at least three fields. *)
Definition record_counter (f0 f1 f2 : string) (results : gmap string value)
  : result (gmap string value) :=
  match py_int f2 with
  | None => Ok results
  | Some counter_value =>
      if fullmatch_plus is_event_char f0 && fullmatch_plus is_register_char f1
      then match results !! f0 with
           | None => Ok (<[f0 := VCounters {[f1 := counter_value]}]> results)
           | Some (VCounters d) =>
               Ok (<[f0 := VCounters (<[f1 := counter_value]> d)]> results)
           | Some (VFloat _) => Raise TypeError
           end
      else Ok results
  end.

(** The body of [for line in output] in [perfctr]. *)
Definition perfctr_line (line : string) (results : gmap string value)
  : result (gmap string value) :=
  match split "," line with
  | f0 :: f1 :: rest =>
      let results :=
        match py_float f1 with
        | Some x => <[f0 := VFloat x]> results
        | None => results
        end in
      match rest with
      | f2 :: _ => record_counter f0 f1 f2 results
      | [] => Ok results
      end
  | _ => Ok results
  end.

(** The parsing loop of [perfctr] on the lines of the tool's output. *)
Fixpoint perfctr_parse (output : list string) (results : gmap string value)
  : result (gmap string value) :=
  match output with
  | [] => Ok results
  | line :: output' =>
      results' ← perfctr_line line results;
      perfctr_parse output' results'
  end.
End perfctr.

(** ** The calibration loop of [analyze] *)

(** [repetitions] starts as an [int] and would become a [float] by the
    floor division. *)
Inductive number : Type :=
  | PyInt (z : Z)
  | PyFloat (f : float).

(** [float(z)] on an [int]: the nearest binary64 value, or an overflow. *)
Definition float_of_int (z : Z) : result float :=
  let f := SF2Prim (binary_normalize prec emax z 0 false) in
  if PrimFloat.is_infinity f then Raise OverflowError else Ok f.

Definition float_of_number (n : number) : result float :=
  match n with
  | PyInt z => float_of_int z
  | PyFloat f => Ok f
  end.

(** [a / b] on floats. *)
Definition float_truediv (a b : float) : result float :=
  if PrimFloat.eqb b 0 then Raise ZeroDivisionError else Ok (a / b)%float.

Section calibration.
Context `{Builtins}.

(** [a // b] on floats. *)
Definition float_floor_div (a b : float) : result float :=
  if PrimFloat.eqb b 0 then Raise ZeroDivisionError else Ok (float_floordiv a b).

(** The profiling tool run for group [MEM]: what the [n]-th call of
    [perfctr] returns for a given repetition count. *)
Variable perfctr_mem : nat → number → result (gmap string value).

(** The [if]/[else] that opens the loop body. *)
Definition next_repetitions (time_per_repetition : float) (repetitions : number)
  : result number :=
  if PrimFloat.eqb time_per_repetition 0
  then f ← float_floor_div 0.2 time_per_repetition; Ok (PyFloat f)
  else Ok (match repetitions with
           | PyInt z => PyInt (z * 10)
           | PyFloat f => PyFloat (f * 10)%float
           end).

(** One round of the loop body: the new [repetitions], [mem_results],
    [runtime] and [time_per_repetition]. *)
Definition probe (calls : nat) (time_per_repetition : float) (repetitions : number)
  : result (number * gmap string value * float * float) :=
  repetitions ← next_repetitions time_per_repetition repetitions;
  mem_results ← perfctr_mem calls repetitions;
  match mem_results !! "Runtime (RDTSC) [s]" with
  | None => Raise KeyError
  | Some runtime =>
      d ← float_of_number repetitions;
      match runtime with
      | VCounters _ => Raise TypeError
      | VFloat runtime =>
          time_per_repetition ← float_truediv runtime d;
          Ok (repetitions, mem_results, runtime, time_per_repetition)
      end
  end.

(** [while runtime < 0.15], on fuel. *)
Fixpoint calibrate (fuel calls : nat)
    (st : number * gmap string value * float * float)
  : outcome (number * gmap string value * float * float) :=
  let '(repetitions, mem_results, runtime, time_per_repetition) := st in
  if PrimFloat.ltb runtime 0.15 then
    match fuel with
    | O => Spinning
    | S fuel' =>
        st' ← lift_result (probe calls time_per_repetition repetitions);
        calibrate fuel' (S calls) st'
    end
  else Returned st.

(** The calibration of [analyze] from its initial values. *)
Definition analyze_calibration (fuel : nat)
  : outcome (number * gmap string value * float * float) :=
  calibrate fuel 0 (PyInt 10, ∅, 0%float, (0.2 / 10.0)%float).
End calibration.

(** ** Matching measured counters to symbols in [analyze] *)

(** The loop [for r in regs] for one symbol. *)
Fixpoint match_registers (measured_ctrs : gmap string value) (sym event : string)
    (regs : list (option string)) (fin : ending)
    (event_counter_results : gmap string Z) : outcome (gmap string Z) :=
  match regs with
  | [] => end_of_loop fin event_counter_results
  | r :: regs' =>
      match measured_ctrs !! event with
      | None => Raised KeyError
      | Some (VFloat _) => Raised TypeError
      | Some (VCounters d) =>
          match r ≫= (d !!.) with
          | Some v =>
              match_registers measured_ctrs sym event regs' fin
                (<[sym := v]> event_counter_results)
          | None =>
              match_registers measured_ctrs sym event regs' fin
                event_counter_results
          end
      end
  end.

(** The loop [for sym, ctr in event_counters.items()]. *)
Fixpoint match_counters (measured_ctrs : gmap string value)
    (event_counters : list (string * event_tpl))
    (event_counter_results : gmap string Z) : outcome (gmap string Z) :=
  match event_counters with
  | [] => Returned event_counter_results
  | (sym, ctr) :: event_counters' =>
      let '(event, regdescr, parameter) := ctr in
      let regs := register_options regdescr in
      results ← match_registers measured_ctrs sym event (yielded regs) (finish regs)
                  event_counter_results;
      match_counters measured_ctrs event_counters' results
  end.

(** ** Further loops of [analyze] *)

(** [[f(x) for x in l]] for an [f] that may raise. *)
Fixpoint result_map {A B : Type} (f : A → result B) (l : list A) : result (list B) :=
  match l with
  | [] => Ok []
  | x :: l' => y ← f x; ys ← result_map f l'; Ok (y :: ys)
  end.

(** [','.join([eventstr(e) for e in run])]: the event group handed to
    the profiling tool for one run. *)
Definition event_group (run : list run_entry) : result string :=
  strs ← result_map eventstr run; Ok (join "," strs).

Section gather.
(** The profiling tool run on an event group: what the [n]-th call of
    [perfctr] returns for the group string. *)
Variable perfctr_group : nat → string → result (gmap string value).

(** The loop [for run in minimal_runs]: render the run, measure it,
    append the result to [raw_results] and [update] the measured
    counters with it. *)
Fixpoint gather_counters (calls : nat) (minimal_runs : list (list run_entry))
    (raw_results : list (gmap string value)) (measured_ctrs : gmap string value)
  : result (list (gmap string value) * gmap string value) :=
  match minimal_runs with
  | [] => Ok (raw_results, measured_ctrs)
  | run :: minimal_runs' =>
      ctrs ← event_group run;
      r ← perfctr_group calls ctrs;
      gather_counters (S calls) minimal_runs' (raw_results ++ [r]) (r ∪ measured_ctrs)
  end.
End gather.

(** * Vocabulary of the properties *)

(** A generator is settled when its enumeration ended within the fuel. *)
Definition settled {A : Type} (g : generator A) : Prop := finish g ≠ Unfinished.

(** ** Expansion *)

(** What a token stands for: the characters of a group, or the one
    character. *)
Definition token_options (tok : token) : generator string :=
  match tok with
  | Grp grp => group_iterator grp
  | Chr chr => gen_of_list [char chr]
  end.

(** The body of the loop of [register_options] for one alternative,
    with the recursion on the rest of the alternative run to its end. *)
Definition expand_alternative (u : string) : generator (option string) :=
  match match_token u with
  | None => gen_raise AttributeError
  | Some (tok, rest) =>
      gen_for_gen (token_options tok) (λ c,
        if rest is EmptyString then gen_yield (Some c)
        else gen_for_gen (register_options rest) (str_add c))
  end.

(** The ways the enumeration of a descriptor can go: it ends normally
    or by [AttributeError], and it yields names only. *)
Definition names_only (g : generator (option string)) : Prop :=
  (finish g = StopIteration ∨ finish g = Raises AttributeError) ∧
  Forall is_Some (yielded g).

(** The same when the enumeration may also be cut short for want of
    frames. *)
Definition names_or_cut (g : generator (option string)) : Prop :=
  (finish g = StopIteration ∨ finish g = Raises AttributeError ∨
   finish g = Unfinished) ∧
  Forall is_Some (yielded g).

(** A character that is neither a bracket, a pipe nor a newline. *)
Definition plain_char (c : ascii) : bool :=
  negb (Ascii.eqb c "[") && negb (Ascii.eqb c "|") && is_dot c.

(** An event whose descriptor expands to the one register [r]. *)
Definition pinned (r : option string) (e : event_tpl) : Prop :=
  yielded (register_options e.1.2) = [r].

Global Instance pinned_dec (r : option string) (e : event_tpl) : Decision (pinned r e).
Proof. unfold pinned. apply _. Defined.

(** ** Parsing *)

Section parsing_vocabulary.
Context `{Builtins}.

(** No metric line of the output has a name of the shape of an event
    name. *)
Definition metrics_apart (output : list string) : Prop :=
  ∀ line f0 f1 rest,
    line ∈ output → split "," line = f0 :: f1 :: rest →
    is_Some (py_float f1) → fullmatch_plus is_event_char f0 = false.

(** No name of the shape of an event name is bound to a float. *)
Definition floats_apart (results : gmap string value) : Prop :=
  ∀ k x, results !! k = Some (VFloat x) → fullmatch_plus is_event_char k = false.
End parsing_vocabulary.

(** The counters a name is bound to, none if it is unbound or bound to
    a float. *)
Definition counters_of (results : gmap string value) (name : string) : gmap string Z :=
  match results !! name with
  | Some (VCounters d) => d
  | _ => ∅
  end.

(** ** De-duplication *)

(** The events of [l] that do not occur in [pre], each at its first
    occurrence. *)
Fixpoint firsts {A : Type} `{EqDecision A} (pre l : list A) : list A :=
  match l with
  | [] => []
  | x :: l' =>
      if decide (x ∈ pre) then firsts (pre ++ [x]) l'
      else x :: firsts (pre ++ [x]) l'
  end.

(** ** Scheduling *)

(** Every entry of every run, run after run. *)
Definition all_entries (scheduled_runs : list (nat * run_dict)) : list run_entry :=
  concat (dict_values <$> dict_values scheduled_runs).

(** The entry an event leaves in a run once it sits on register [r]. *)
Definition entry_of (a : event_tpl * option string) : run_entry :=
  (a.1.1.1, a.2, a.1.2).

(** The register given to an event is one its descriptor expands to. *)
Definition candidate (a : event_tpl * option string) : Prop :=
  a.2 ∈ yielded (register_options a.1.1.2).

(** A run holds something, its registers are distinct, and each entry
    carries the register it is stored under. *)
Definition run_ok (s : run_dict) : Prop :=
  NoDup (dict_keys s) ∧ s ≠ [] ∧ Forall (λ kv, kv.2.1.2 = kv.1) s.

(** The invariant of the scheduling loop at run index [bound]. *)
Record sched_inv (bound : nat) (st : sched_state) : Prop := SchedInv {
  inv_keys : NoDup (dict_keys st.1);
  inv_below : Forall (λ k, k < bound) (dict_keys st.1);
  inv_runs : Forall run_ok (dict_values st.1);
  inv_assign : ∃ assign : list (event_tpl * option string),
    assign.*1 = st.2 ∧ Forall candidate assign ∧
    all_entries st.1 ≡ₚ entry_of <$> assign
}.

(** The invariant of the loop together with what it keeps of the list
    of scheduled events. *)
Definition loop_inv (events : list event_tpl) (bound : nat) (st : sched_state) : Prop :=
  sched_inv bound st ∧ NoDup st.2 ∧ st.2 ⊆ events.

(** The register of a run entry. *)
Definition register_of (entry : run_entry) : option string := entry.1.2.

(** ** First fit *)

(** Every candidate register of [e] is taken in every run with an index
    below [bound]. *)
Definition occupied (scheduled_runs : list (nat * run_dict)) (e : event_tpl)
    (bound : nat) : Prop :=
  ∀ j s, (j, s) ∈ scheduled_runs → j < bound →
    ∀ r', r' ∈ yielded (register_options e.1.2) → r' ∈ dict_keys s.

(** The event [a.1.1] sits in run [a.2] on register [a.1.2]: the
    candidates before that register are taken in the same run, and all
    candidates are taken in every earlier run. *)
Definition placed (scheduled_runs : list (nat * run_dict))
    (a : event_tpl * option string * nat) : Prop :=
  ∃ s pre post,
    (a.2, s) ∈ scheduled_runs ∧ (a.1.2, entry_of a.1) ∈ s ∧
    yielded (register_options a.1.1.1.2) = pre ++ a.1.2 :: post ∧
    (∀ r', r' ∈ pre → r' ∈ dict_keys s) ∧
    occupied scheduled_runs a.1.1 a.2.

(** The event [e] found no room up to and including run [cur]. *)
Definition stuck (cur : nat) (scheduled_runs : list (nat * run_dict))
    (e : event_tpl) : Prop :=
  occupied scheduled_runs e cur ∧
  (yielded (register_options e.1.2) = [] ∨
   ∃ s, (cur, s) ∈ scheduled_runs ∧
        ∀ r', r' ∈ yielded (register_options e.1.2) → r' ∈ dict_keys s).

(** What a placement in run [cur] does to the runs: the other runs stay
    as they are and run [cur] only gains entries. *)
Definition extends (cur : nat) (runs runs' : list (nat * run_dict)) : Prop :=
  (∀ j s, (j, s) ∈ runs' → j ≠ cur → (j, s) ∈ runs) ∧
  (∀ j s, (j, s) ∈ runs → j ≠ cur → (j, s) ∈ runs') ∧
  (∀ s, (cur, s) ∈ runs → ∃ s', (cur, s') ∈ runs' ∧ s ⊆ s').

(** The same on the list of runs that is returned, [a.2] being the
    position of the run in the list. *)
Definition first_fit (runs : list (list run_entry))
    (a : event_tpl * option string * nat) : Prop :=
  ∃ run pre post,
    runs !! a.2 = Some run ∧ entry_of a.1 ∈ run ∧
    yielded (register_options a.1.1.1.2) = pre ++ a.1.2 :: post ∧
    (∀ r', r' ∈ pre → r' ∈ register_of <$> run) ∧
    (∀ j run_j r', j < a.2 → runs !! j = Some run_j →
       r' ∈ yielded (register_options a.1.1.1.2) → r' ∈ register_of <$> run_j).

(** Five events for the two registers of [PMC[0-1]], one of them given
    twice, and the three runs they are packed into. *)
Definition five_events : list event_tpl :=
  [("L1D_REPLACEMENT", "PMC[0-1]", None);
   ("L2_LINES_IN", "PMC[0-1]", None);
   ("L1D_REPLACEMENT", "PMC[0-1]", None);
   ("L2_TRANS", "PMC[0-1]", None);
   ("MEM_UOPS_RETIRED_LOADS", "PMC[0-1]", Some {[ "THRESHOLD" := Some 2342%Z ]});
   ("MEM_UOPS_RETIRED_LOADS", "PMC[0-1]", None)].

Definition five_runs : list (list run_entry) :=
  [[("L1D_REPLACEMENT", Some "PMC0", None); ("L2_LINES_IN", Some "PMC1", None)];
   [("L2_TRANS", Some "PMC0", None);
    ("MEM_UOPS_RETIRED_LOADS", Some "PMC1", Some {[ "THRESHOLD" := Some 2342%Z ]})];
   [("MEM_UOPS_RETIRED_LOADS", Some "PMC0", None)]].

(** An event whose only range runs backwards. *)
Definition unplaceable_event : event_tpl := ("L1D_REPLACEMENT", "PMC[b-a]", None).

(** ** The built-ins on plain numerals *)

(** An instance of [Builtins] for the closed examples: [int] and
    [float] read unsigned or signed runs of decimal digits, and floor
    division takes the floor of the exact quotient of two finite
    operands. *)
Fixpoint decimal_value (a : N) (s : string) : option N :=
  match s with
  | EmptyString => Some a
  | String c s' =>
      if ascii_between "0" "9" c
      then decimal_value (10 * a + (N_of_ascii c - 48)) s'
      else None
  end.

Definition decimal_int (s : string) : option Z :=
  match s with
  | EmptyString => None
  | String "-" (String c s') => Z.opp ∘ Z.of_N <$> decimal_value 0 (String c s')
  | String "+" (String c s') => Z.of_N <$> decimal_value 0 (String c s')
  | String "-" EmptyString | String "+" EmptyString => None
  | _ => Z.of_N <$> decimal_value 0 s
  end.

Definition nearest_float (z : Z) : float :=
  SF2Prim (binary_normalize prec emax z 0 false).

Definition decimal_float (s : string) : option float :=
  nearest_float <$> decimal_int s.

Definition signed_mantissa (s : bool) (m : positive) (shift : Z) : Z :=
  (if s then Z.neg m else Z.pos m) * 2 ^ shift.

Definition exact_floordiv (a b : float) : float :=
  match Prim2SF a, Prim2SF b with
  | S754_finite sa ma ea, S754_finite sb mb eb =>
      let e := Z.min ea eb in
      nearest_float (signed_mantissa sa ma (ea - e) / signed_mantissa sb mb (eb - e))
  | _, _ => (a / b)%float
  end.

Definition numerals : Builtins := {|
  py_float := decimal_float;
  py_int := decimal_int;
  float_floordiv := exact_floordiv
|}.

(** A profiling tool that reports a runtime of zero seconds. *)
Definition zero_probe (calls : nat) (repetitions : number)
  : result (gmap string value) :=
  Ok {[ "Runtime (RDTSC) [s]" := VFloat 0 ]}.

(** A profiling tool whose runtime is proportional to the repetition
    count: [2^-10] seconds for each repetition. *)
Definition proportional_probe (calls : nat) (repetitions : number)
  : result (gmap string value) :=
  d ← float_of_number repetitions;
  Ok {[ "Runtime (RDTSC) [s]" := VFloat (d * 0x1p-10)%float ]}.

(** A profiling tool that reports, whatever the group, the number of
    the call as the count of [UOPS] on [PMC0]. *)
Definition counting_tool (calls : nat) (group : string) : result (gmap string value) :=
  Ok {[ "UOPS" := VCounters {[ "PMC0" := Z.of_nat calls ]} ]}.

(** ** Rendering *)

(** The value of a lowercase hexadecimal digit, and of a digit string
    read from the left onto the accumulator [a]. *)
Definition hex_digit_value (c : ascii) : option N :=
  N.of_nat <$> str_index c "0123456789abcdef".

Fixpoint hex_value (a : N) (s : string) : option N :=
  match s with
  | EmptyString => Some a
  | String c s' => d ← hex_digit_value c; hex_value (16 * a + d) s'
  end.

(** The segments [eventstr] appends for the parameters of an event. *)
Definition param_segments (parameters : option params) : list string :=
  match parameters with
  | Some d => param_segment <$> sorted_items d
  | None => []
  end.

(** ** Matching *)

(** The value a register is measured at, if it is a name the counter
    dictionary of the event knows. *)
Definition measured_at (d : gmap string Z) (r : option string) : option Z :=
  r ≫= (d !!.).

(** * Properties *)

(** ** Generators *)

Lemma settled_seq {A : Type} (g1 g2 : generator A) :
  settled g1 → settled g2 → settled (gen_seq g1 g2).
Proof.
  unfold settled, gen_seq. intros H1 H2.
  destruct (finish g1) eqn:E; simpl; congruence.
Qed.

Lemma settled_for {A B : Type} (l : list B) (body : B → generator A) :
  (∀ x, x ∈ l → settled (body x)) → settled (gen_for l body).
Proof.
  induction l as [|x l IH]; intros Hl; simpl.
  - discriminate.
  - apply settled_seq; [apply Hl; left | apply IH; intros y Hy; apply Hl; by right].
Qed.

Lemma settled_for_gen {A B : Type} (g : generator B) (body : B → generator A) :
  settled g → (∀ x, x ∈ yielded g → settled (body x)) → settled (gen_for_gen g body).
Proof.
  intros Hg Hb. unfold gen_for_gen. apply settled_seq; [by apply settled_for | exact Hg].
Qed.

Lemma settled_yield {A : Type} (x : A) : settled (gen_yield x).
Proof. discriminate. Qed.

Lemma settled_nil {A : Type} : settled (@gen_nil A).
Proof. discriminate. Qed.

Lemma settled_raise {A : Type} (e : exn) : settled (@gen_raise A e).
Proof. discriminate. Qed.

Create HintDb gen discriminated.
#[local] Hint Resolve settled_seq settled_for settled_for_gen settled_yield
  settled_nil settled_raise : gen.

(** ** The expander always comes to an end *)

Lemma settled_group_range (a b : ascii) : settled (group_range a b).
Proof.
  unfold group_range.
  destruct (str_index a ordered_chars), (str_index b ordered_chars); auto with gen.
  apply settled_for. intros k _. destruct (str_get k ordered_chars); auto with gen.
Qed.
#[local] Hint Resolve settled_group_range : gen.

Lemma settled_group_iterator_bounded (n : nat) (group : string) :
  String.length group ≤ n → settled (group_iterator group).
Proof.
  revert group. induction n as [|n IH]; intros [|c rest] Hlen; simpl in *;
    auto with gen; try lia.
  assert (Hsingle : settled (gen_seq (if is_dot c then gen_yield (char c) else gen_nil)
                                     (group_iterator rest))).
  { apply settled_seq; [destruct (is_dot c); auto with gen | apply IH; lia]. }
  destruct rest as [|d1 rest1]; [exact Hsingle|].
  destruct d1 as [[] [] [] [] [] [] [] []], rest1 as [|d rest'];
    try exact Hsingle.
  destruct (is_alnum c && is_alnum d); try exact Hsingle.
  apply settled_seq; auto with gen. apply IH. simpl in Hlen. lia.
Qed.

Lemma settled_group_iterator (group : string) : settled (group_iterator group).
Proof. by apply (settled_group_iterator_bounded (String.length group)). Qed.
#[local] Hint Resolve settled_group_iterator : gen.

Lemma split_length (sep : ascii) (s u : string) :
  u ∈ split sep s → String.length u ≤ String.length s.
Proof.
  revert u. induction s as [|c s IH]; intros u Hu; simpl in *.
  - apply list_elem_of_singleton in Hu. by subst.
  - destruct (Ascii.eqb c sep).
    + apply elem_of_cons in Hu as [->|Hu]; simpl; [lia|]. specialize (IH _ Hu). lia.
    + destruct (split sep s) as [|h t] eqn:E.
      * apply list_elem_of_singleton in Hu. subst. simpl. lia.
      * apply elem_of_cons in Hu as [->|Hu]; simpl.
        -- assert (String.length h ≤ String.length s) by (apply IH; left). lia.
        -- assert (String.length u ≤ String.length s) by (apply IH; by right). lia.
Qed.

Lemma span_group_length (s g r : string) :
  span_group s = (g, r) → String.length r ≤ String.length s.
Proof.
  revert g r. induction s as [|c s IH]; intros g r; simpl.
  - intros [= <- <-]. done.
  - destruct (Ascii.eqb c "]").
    + intros [= <- <-]. done.
    + destruct (span_group s) as [g' r'] eqn:E. intros [= <- <-].
      specialize (IH _ _ eq_refl). lia.
Qed.

Lemma match_token_length (u : string) (tok : token) (rest : string) :
  match_token u = Some (tok, rest) → String.length rest < String.length u.
Proof.
  destruct u as [|c u]; simpl; [done|].
  assert (Hchr : (if is_dot c then Some (Chr c, u) else None) = Some (tok, rest) →
                 String.length rest < S (String.length u)).
  { destruct (is_dot c); [intros [= <- <-]; lia | done]. }
  destruct (Ascii.eqb c "["); [|exact Hchr].
  destruct (span_group u) as [g r] eqn:E.
  destruct g as [|g0 g]; [exact Hchr|].
  destruct r as [|r0 after]; [exact Hchr|].
  intros [= <- <-]. apply span_group_length in E. simpl in E. lia.
Qed.

Lemma settled_str_add (c : string) (r : option string) : settled (str_add c r).
Proof. destruct r; simpl; auto with gen. Qed.
#[local] Hint Resolve settled_str_add : gen.

Lemma settled_register_options_fuel (fuel : nat) (regdescr : string) :
  String.length regdescr < fuel → settled (register_options_fuel fuel regdescr).
Proof.
  revert regdescr. induction fuel as [|fuel IH]; intros regdescr Hlen; [lia|].
  simpl. apply settled_seq; [destruct regdescr; auto with gen|].
  apply settled_for. intros u Hu. apply split_length in Hu.
  destruct (match_token u) as [[tok rest]|] eqn:E; [|auto with gen].
  apply match_token_length in E.
  apply settled_for_gen; [destruct tok; auto with gen; discriminate|].
  intros c _. destruct rest; [auto with gen|].
  apply settled_for_gen; [apply IH; simpl in *; lia | auto with gen].
Qed.

(** The enumeration of [register_options] is finite on every
    descriptor: it ends by [StopIteration] or by an exception. *)
Lemma register_options_settled (regdescr : string) :
  settled (register_options regdescr).
Proof. apply settled_register_options_fuel. lia. Qed.

(** More fuel than the length of the descriptor changes nothing. *)
Lemma gen_for_ext {A B : Type} (l : list B) (f g : B → generator A) :
  (∀ x, x ∈ l → f x = g x) → gen_for l f = gen_for l g.
Proof.
  induction l as [|x l IH]; intros Hfg; simpl; [done|].
  rewrite Hfg by left. rewrite IH; [done|]. intros y Hy. apply Hfg. by right.
Qed.

Lemma register_options_fuel_irrelevant (n f1 f2 : nat) (regdescr : string) :
  String.length regdescr ≤ n →
  String.length regdescr < f1 → String.length regdescr < f2 →
  register_options_fuel f1 regdescr = register_options_fuel f2 regdescr.
Proof.
  revert regdescr f1 f2.
  induction n as [|n IH]; intros regdescr [|f1] [|f2] Hn H1 H2; try lia;
    simpl; f_equal; apply gen_for_ext; intros u Hu; apply split_length in Hu;
    destruct (match_token u) as [[tok rest]|] eqn:E; try done;
    apply match_token_length in E; [lia|].
  unfold gen_for_gen. f_equal. apply gen_for_ext. intros c _.
  destruct rest as [|r0 rest]; [done|].
  rewrite (IH (String r0 rest) f1 f2) by lia. done.
Qed.

Lemma register_options_fuel_enough (fuel : nat) (regdescr : string) :
  String.length regdescr < fuel →
  register_options_fuel fuel regdescr = register_options regdescr.
Proof.
  intros Hlen. unfold register_options.
  apply (register_options_fuel_irrelevant (String.length regdescr)); lia.
Qed.

(** ** The expander on the documented examples *)

(** C6: the bracket group expander on [a-f], [148], [7-9ab] and [0B-A1]
    (whose range [B-A] runs backwards in the alphabet and is empty), and
    [register_options] on [PMC[0-3]], on [CBOX[0-3]C[01]] (eight names,
    the first group varying slowest) and on [PMC[0-1]|PMC[23]], yield
    exactly the documented sequences and end normally. *)
Theorem expander_examples :
  group_iterator "a-f" = gen_of_list ["a"; "b"; "c"; "d"; "e"; "f"] ∧
  group_iterator "148" = gen_of_list ["1"; "4"; "8"] ∧
  group_iterator "7-9ab" = gen_of_list ["7"; "8"; "9"; "a"; "b"] ∧
  group_iterator "0B-A1" = gen_of_list ["0"; "1"] ∧
  group_iterator "B-A" = gen_of_list [] ∧
  register_options "PMC[0-3]" =
    gen_of_list [Some "PMC0"; Some "PMC1"; Some "PMC2"; Some "PMC3"] ∧
  register_options "CBOX[0-3]C[01]" =
    gen_of_list [Some "CBOX0C0"; Some "CBOX0C1"; Some "CBOX1C0"; Some "CBOX1C1";
                 Some "CBOX2C0"; Some "CBOX2C1"; Some "CBOX3C0"; Some "CBOX3C1"] ∧
  register_options "PMC[0-1]|PMC[23]" =
    gen_of_list [Some "PMC0"; Some "PMC1"; Some "PMC2"; Some "PMC3"].
Proof. repeat split; vm_compute; reflexivity. Qed.

(** The same groups inside brackets, through [register_options]. *)
Lemma register_options_groups :
  register_options "[a-f]" =
    gen_of_list [Some "a"; Some "b"; Some "c"; Some "d"; Some "e"; Some "f"] ∧
  register_options "[148]" = gen_of_list [Some "1"; Some "4"; Some "8"] ∧
  register_options "[7-9ab]" =
    gen_of_list [Some "7"; Some "8"; Some "9"; Some "a"; Some "b"] ∧
  register_options "[0B-A1]" = gen_of_list [Some "0"; Some "1"].
Proof. repeat split; vm_compute; reflexivity. Qed.

(** Malformed groups are read as literal characters. *)
Lemma register_options_malformed :
  register_options "[abc" = gen_of_list [Some "[abc"] ∧
  register_options "[]x" = gen_of_list [Some "[]x"] ∧
  register_options "a]b" = gen_of_list [Some "a]b"].
Proof. repeat split; vm_compute; reflexivity. Qed.

(** ** The expander on the empty descriptor *)

(** C5: on the empty descriptor [register_options] yields the [None]
    marker and then, instead of stopping, goes on to match the tokenizer
    against the empty alternative and raises [AttributeError]; the same
    happens after the last name of a descriptor that ends in a pipe. *)
Theorem register_options_empty_raises :
  register_options "" = Gen [None] (Raises AttributeError) ∧
  register_options "PMC0|" = Gen [Some "PMC0"] (Raises AttributeError).
Proof. split; vm_compute; reflexivity. Qed.

(** ** The parser of [perfctr] *)

Section perfctr_facts.
Context `{Builtins}.

(** C8: a line whose second field is both a float and a register name,
    after an event name and before an integer, is first recorded as a
    metric and then makes the raw counter assignment fail on that
    float: the [TypeError] is not among the exceptions the parser
    ignores. *)
Theorem perfctr_parse_metric_as_register (x : float) (n : Z)
    (results : gmap string value) :
  py_float "1" = Some x →
  py_int "2" = Some n →
  perfctr_parse ["A,1,2"] results = Raise TypeError.
Proof.
  intros Hx Hn. simpl. unfold perfctr_line. simpl.
  rewrite Hx. unfold record_counter. rewrite Hn. simpl.
  by rewrite lookup_insert_eq.
Qed.

(** The only way a line makes the parser fail: it has the shape of a
    raw counter and its name is bound to a float, by this very line or
    by an earlier one. *)
Lemma perfctr_line_failure (line : string) (results : gmap string value) (e : exn) :
  perfctr_line line results = Raise e →
  e = TypeError ∧
  ∃ f0 f1 f2 rest,
    split "," line = f0 :: f1 :: f2 :: rest ∧
    fullmatch_plus is_event_char f0 = true ∧
    fullmatch_plus is_register_char f1 = true ∧
    is_Some (py_int f2) ∧
    (is_Some (py_float f1) ∨ ∃ x, results !! f0 = Some (VFloat x)).
Proof.
  unfold perfctr_line.
  destruct (split "," line) as [|f0 [|f1 [|f2 rest]]]; try done.
  unfold record_counter.
  destruct (py_int f2) as [n|] eqn:Hn; [|done].
  destruct (fullmatch_plus is_event_char f0) eqn:H0; [|done].
  destruct (fullmatch_plus is_register_char f1) eqn:H1; [|done]. simpl.
  destruct (py_float f1) as [x|] eqn:Hx.
  - rewrite lookup_insert_eq. intros [= <-]. split; [done|].
    exists f0, f1, f2, rest. eauto 10.
  - destruct (results !! f0) as [[x|d]|] eqn:Hr; try done.
    intros [= <-]. split; [done|]. exists f0, f1, f2, rest. eauto 10.
Qed.

(** A line without a comma leaves the results untouched. *)
Lemma perfctr_line_no_comma (line : string) (results : gmap string value) :
  split "," line = [line] → perfctr_line line results = Ok results.
Proof. intros Hs. unfold perfctr_line. by rewrite Hs. Qed.
End perfctr_facts.

Lemma perfctr_parse_metric_as_register_witness :
  @perfctr_parse numerals ["A,1,2"] ∅ = Raise TypeError.
Proof.
  apply (@perfctr_parse_metric_as_register numerals 1%float 2%Z ∅);
    vm_compute; reflexivity.
Defined.

(** Lines of the shapes the tool prints are recorded as the parser
    intends: a metric, a raw counter, and a second counter of the same
    event; a header is ignored. *)
Lemma perfctr_parse_example :
  @perfctr_parse numerals
    ["Event,Counter,Core 0"; "Runtime (RDTSC) [s],2"; "L1D_REPLACEMENT,PMC0,7";
     "L1D_REPLACEMENT,PMC1,9"; ""] ∅
  = Ok (<["Runtime (RDTSC) [s]" := VFloat 2]>
        {[ "L1D_REPLACEMENT" := VCounters (<["PMC0" := 7%Z]> {[ "PMC1" := 9%Z ]}) ]}).
Proof. vm_compute. reflexivity. Qed.

(** ** The calibration loop *)

Section calibration_facts.
Context `{Builtins}.
Variable perfctr_mem : nat → number → result (gmap string value).

Lemma float_of_int_100 : float_of_int 100 = Ok 100%float.
Proof. vm_compute. reflexivity. Qed.

(** Once the measured time per repetition is zero the next round
    raises, whatever the tool would report. *)
Lemma probe_zero_time (calls : nat) (time_per_repetition : float)
    (repetitions : number) :
  PrimFloat.eqb time_per_repetition 0 = true →
  probe perfctr_mem calls time_per_repetition repetitions = Raise ZeroDivisionError.
Proof.
  intros Hz. unfold probe, next_repetitions, float_floor_div. by rewrite Hz.
Qed.

Lemma probe_first_zero (mem_results : gmap string value) :
  perfctr_mem 0 (PyInt 100) = Ok mem_results →
  mem_results !! "Runtime (RDTSC) [s]" = Some (VFloat 0) →
  probe perfctr_mem 0 (0.2 / 10.0) (PyInt 10)
  = Ok (PyInt 100, mem_results, 0%float, 0%float).
Proof.
  intros Hrun Htime. unfold probe, next_repetitions.
  replace (PrimFloat.eqb (0.2 / 10.0) 0) with false by (vm_compute; reflexivity).
  replace (10 * 10)%Z with 100%Z by reflexivity.
  cbn [mbind result_bind]. rewrite Hrun. cbn [mbind result_bind].
  rewrite Htime. cbn [float_of_number]. rewrite float_of_int_100.
  reflexivity.
Qed.

(** C3: when the first probe reports a runtime of zero, the measured
    time per repetition is zero, the loop goes round again and the
    guard sends it to [0.2 // time_per_repetition], which raises
    [ZeroDivisionError]. *)
Theorem calibration_zero_runtime (mem_results : gmap string value) (fuel : nat) :
  perfctr_mem 0 (PyInt 100) = Ok mem_results →
  mem_results !! "Runtime (RDTSC) [s]" = Some (VFloat 0) →
  analyze_calibration perfctr_mem (S (S fuel)) = Raised ZeroDivisionError.
Proof.
  intros Hrun Htime. unfold analyze_calibration.
  cbn [calibrate].
  replace (PrimFloat.ltb 0 0.15) with true by (vm_compute; reflexivity).
  rewrite (probe_first_zero _ Hrun Htime).
  cbn [lift_result mbind outcome_bind].
  replace (PrimFloat.ltb 0 0.15) with true by (vm_compute; reflexivity).
  by rewrite probe_zero_time by reflexivity.
Qed.
End calibration_facts.

(** With [2^-10] seconds for each repetition the loop is over after
    the second probe, at 1000 repetitions, and the measured time per
    repetition times the repetitions is above the threshold. *)
Lemma calibration_proportional :
  ∃ mem_results runtime time_per_repetition,
    @analyze_calibration numerals proportional_probe 2
    = Returned (PyInt 1000, mem_results, runtime, time_per_repetition) ∧
    PrimFloat.leb 0.15 (time_per_repetition * 1000) = true.
Proof.
  eexists _, _, _. split; [vm_compute; reflexivity|]. vm_compute. reflexivity.
Qed.

Lemma calibration_zero_runtime_witness :
  @analyze_calibration numerals zero_probe 2 = Raised ZeroDivisionError.
Proof.
  apply (@calibration_zero_runtime numerals zero_probe
           {[ "Runtime (RDTSC) [s]" := VFloat 0 ]} 0); reflexivity.
Defined.

(** ** Matching counters to symbols *)

Lemma match_registers_counters (measured_ctrs : gmap string value)
    (sym event : string) (d : gmap string Z) (regs : list (option string))
    (fin : ending) (results : gmap string Z) :
  measured_ctrs !! event = Some (VCounters d) →
  match_registers measured_ctrs sym event regs fin results
  = end_of_loop fin (match last (omap (measured_at d) regs) with
                     | Some v => <[sym := v]> results
                     | None => results
                     end).
Proof.
  intros Hev. revert results.
  induction regs as [|r regs IH]; intros results; simpl; [done|].
  rewrite Hev. fold (measured_at d r).
  destruct (measured_at d r) as [v|] eqn:Hr; rewrite IH; [|done].
  change (list_omap _ _ (measured_at d) regs) with (omap (measured_at d) regs).
  destruct (omap (measured_at d) regs) as [|w ws] eqn:Hrest; [done|].
  rewrite last_cons_cons.
  destruct (last (w :: ws)) eqn:El; [by rewrite insert_insert_eq|].
  by apply last_None in El.
Qed.

(** C4 (as the code has it): the loop over the candidate registers has
    no [break], so a symbol whose event has a counter dictionary ends up
    bound to the value of the LAST candidate, in expansion order, that
    the dictionary knows; with no such candidate the bindings are left
    as they were.  When the enumeration of the descriptor ends normally
    the matching goes on with the next symbol; when it breaks off with
    an exception, the matching raises that exception.  This holds for
    every descriptor and at any position in the list of symbols. *)
Theorem match_counters_last_register (measured_ctrs : gmap string value)
    (sym event regdescr : string) (parameter : option params)
    (d : gmap string Z) (event_counters : list (string * event_tpl))
    (results : gmap string Z) :
  measured_ctrs !! event = Some (VCounters d) →
  settled (register_options regdescr) ∧
  match_counters measured_ctrs ((sym, (event, regdescr, parameter)) :: event_counters)
    results
  = match finish (register_options regdescr) with
    | StopIteration =>
        match_counters measured_ctrs event_counters
          (match last (omap (measured_at d) (yielded (register_options regdescr))) with
           | Some v => <[sym := v]> results
           | None => results
           end)
    | Raises e => Raised e
    | Unfinished => Spinning
    end.
Proof.
  intros Hev. split; [apply register_options_settled|]. cbn [match_counters].
  rewrite (match_registers_counters _ _ _ d) by done.
  by destruct (finish (register_options regdescr)).
Qed.

Lemma match_counters_last_register_witness :
  match_counters
    {[ "L1D_REPLACEMENT" := VCounters (<["PMC1" := 7%Z]> {[ "PMC2" := 9%Z ]}) ]}
    [("s", ("L1D_REPLACEMENT", "PMC[0-3]", None))] ∅
  = Returned {[ "s" := 9%Z ]} ∧
  match_counters
    {[ "L1D_REPLACEMENT" := VCounters (<["PMC1" := 7%Z]> {[ "PMC2" := 9%Z ]}) ]}
    [("s", ("L1D_REPLACEMENT", "PMC[0-3]|", None))] ∅
  = Raised AttributeError.
Proof.
  assert (Hev : ({[ "L1D_REPLACEMENT" :=
                     VCounters (<["PMC1" := 7%Z]> {[ "PMC2" := 9%Z ]}) ]}
                 : gmap string value) !! "L1D_REPLACEMENT"
                = Some (VCounters (<["PMC1" := 7%Z]> {[ "PMC2" := 9%Z ]})))
    by (vm_compute; reflexivity).
  split.
  - rewrite (proj2 (match_counters_last_register _ "s" "L1D_REPLACEMENT" "PMC[0-3]"
                      None _ [] ∅ Hev)).
    vm_compute. reflexivity.
  - rewrite (proj2 (match_counters_last_register _ "s" "L1D_REPLACEMENT" "PMC[0-3]|"
                      None _ [] ∅ Hev)).
    vm_compute. reflexivity.
Defined.

(** C4 (as stated) fails: with [PMC0] measured at 1 and [PMC1] at 2, the
    first candidate of [PMC[0-1]] that is measured is [PMC0], yet the
    symbol is bound to 2. *)
Lemma match_counters_not_first_register :
  let d : gmap string Z := <["PMC0" := 1%Z]> {[ "PMC1" := 2%Z ]} in
  head (omap (measured_at d) (yielded (register_options "PMC[0-1]"))) = Some 1%Z ∧
  match_counters {[ "UOPS" := VCounters d ]} [("s", ("UOPS", "PMC[0-1]", None))] ∅
  = Returned {[ "s" := 2%Z ]}.
Proof. split; vm_compute; reflexivity. Qed.

(** C9 (as the code has it): a symbol whose event is missing from the
    measured counters, and whose descriptor yields at least one
    candidate, stops the matching with the [KeyError] of the dictionary
    lookup. *)
Theorem match_counters_missing_event (measured_ctrs : gmap string value)
    (sym event regdescr : string) (parameter : option params)
    (event_counters : list (string * event_tpl)) (results : gmap string Z) :
  measured_ctrs !! event = None →
  yielded (register_options regdescr) ≠ [] →
  match_counters measured_ctrs ((sym, (event, regdescr, parameter)) :: event_counters)
    results
  = Raised KeyError.
Proof.
  intros Hev Hreg. simpl.
  destruct (yielded (register_options regdescr)) as [|r regs]; [done|].
  simpl. by rewrite Hev.
Qed.

Lemma match_counters_missing_event_witness :
  match_counters {[ "UOPS" := VCounters {[ "PMC0" := 1%Z ]} ]}
    [("s", ("L1D_REPLACEMENT", "PMC[0-3]", None))] ∅
  = Raised KeyError.
Proof.
  apply match_counters_missing_event; [reflexivity | vm_compute; discriminate].
Defined.

(** C9 (as stated) fails: the error for a missing event is the plain
    [KeyError] of the lookup [measured_ctrs[event]]; [exn] lists every
    exception the module can raise and none of them is its own. *)
Lemma match_counters_raises_key_error :
  match_counters ∅ [("s", ("L1D_REPLACEMENT", "PMC0", None))] ∅ = Raised KeyError.
Proof. vm_compute. reflexivity. Qed.

(** ** Elimination of multiples *)

Section eliminate_multiples_facts.
Context {A : Type} `{EqDecision A}.
Implicit Types (e x : A) (l pre : list A).

Lemma list_index_lt e l i : list_index e l = Some i → i < length l.
Proof.
  revert i. induction l as [|x l IH]; intros i; simpl; [done|].
  destruct (decide (x = e)); [intros [= <-]; lia|].
  destruct (list_index e l) as [j|]; simpl; [|done].
  intros [= <-]. specialize (IH j eq_refl). lia.
Qed.

Lemma list_index_None e l : list_index e l = None ↔ e ∉ l.
Proof.
  induction l as [|x l IH]; simpl.
  - split; [intros _; apply not_elem_of_nil | done].
  - rewrite not_elem_of_cons. destruct (decide (x = e)) as [->|Hne].
    + split; [done | intros [? _]; done].
    + destruct (list_index e l) as [j|]; simpl.
      * split; [done|]. intros [_ Hl]. by apply IH in Hl.
      * split; [|done]. intros _. split; [congruence | by apply IH].
Qed.

Lemma list_index_app e pre l :
  list_index e (pre ++ l)
  = match list_index e pre with
    | Some i => Some i
    | None => (λ j, length pre + j) <$> list_index e l
    end.
Proof.
  induction pre as [|x pre IH]; simpl.
  - by destruct (list_index e l).
  - destruct (decide (x = e)); [done|]. rewrite IH.
    destruct (list_index e pre); [done|]. by destruct (list_index e l).
Qed.

Lemma list_index_first e pre l :
  list_index e (pre ++ e :: l) = Some (length pre) ↔ e ∉ pre.
Proof.
  rewrite list_index_app. destruct (list_index e pre) as [i|] eqn:E.
  - apply list_index_lt in E as Hlt. split.
    + intros [= ->]. lia.
    + intros Hn. apply list_index_None in Hn. congruence.
  - apply list_index_None in E. simpl. rewrite decide_True by done. simpl.
    split; [done|]. intros _. f_equal. lia.
Qed.

Lemma eliminate_multiples_from pre l :
  (filter (λ ie, list_index ie.2 (pre ++ l) = Some ie.1)
          (zip (seq (length pre) (length l)) l)).*2
  = firsts pre l.
Proof.
  revert pre. induction l as [|x l IH]; intros pre; simpl; [done|].
  specialize (IH (pre ++ [x])).
  rewrite <- (assoc_L (++)) in IH. simpl in IH.
  rewrite length_app in IH. simpl in IH.
  replace (length pre + 1) with (S (length pre)) in IH by lia.
  rewrite filter_cons. simpl.
  destruct (decide (list_index x (pre ++ x :: l) = Some (length pre))) as [Hi|Hi];
    [apply list_index_first in Hi | rewrite list_index_first in Hi].
  - rewrite decide_False by done. by rewrite fmap_cons, IH.
  - rewrite decide_True by (by apply dec_stable). by rewrite IH.
Qed.

Lemma eliminate_multiples_firsts l : eliminate_multiples l = firsts [] l.
Proof. apply (eliminate_multiples_from [] l). Qed.

Lemma elem_of_firsts e pre l : e ∈ firsts pre l ↔ e ∈ l ∧ e ∉ pre.
Proof.
  revert pre. induction l as [|x l IH]; intros pre; simpl.
  - split; [by intros ?%elem_of_nil | by intros [?%elem_of_nil _]].
  - destruct (decide (x ∈ pre)) as [Hx|Hx];
      rewrite ?elem_of_cons, IH, not_elem_of_app, list_elem_of_singleton;
      destruct (decide (e = x)) as [->|Hne]; intuition congruence.
Qed.

Lemma NoDup_firsts pre l : NoDup (firsts pre l).
Proof.
  revert pre. induction l as [|x l IH]; intros pre; simpl; [constructor|].
  destruct (decide (x ∈ pre)); [apply IH|].
  constructor; [|apply IH].
  rewrite elem_of_firsts, not_elem_of_app, list_elem_of_singleton.
  intros [_ [_ ?]]. done.
Qed.

Lemma firsts_filter a pre pre' l :
  (∀ y, y ∈ pre' ↔ y = a ∨ y ∈ pre) →
  firsts pre' l = filter (λ y, y ≠ a) (firsts pre l).
Proof.
  revert pre pre'. induction l as [|x l IH]; intros pre pre' Hpre; simpl; [done|].
  assert (Hnext : ∀ y, y ∈ pre' ++ [x] ↔ y = a ∨ y ∈ pre ++ [x]).
  { intros y. rewrite !elem_of_app, Hpre. tauto. }
  destruct (decide (x ∈ pre')) as [Hx|Hx], (decide (x ∈ pre)) as [Hx'|Hx'].
  - by apply IH.
  - apply Hpre in Hx as [->|Hx]; [|done].
    rewrite filter_cons, decide_False by (intros ?; done). by apply IH.
  - exfalso. apply Hx, Hpre. by right.
  - rewrite filter_cons, decide_True; [f_equal; by apply IH|].
    intros ->. apply Hx, Hpre. by left.
Qed.

(** The first occurrence wins: the head of the list is kept and every
    later copy of it is dropped. *)
Lemma eliminate_multiples_cons x l :
  eliminate_multiples (x :: l) = x :: filter (λ y, y ≠ x) (eliminate_multiples l).
Proof.
  rewrite !eliminate_multiples_firsts. cbn [firsts].
  rewrite decide_False by apply not_elem_of_nil. f_equal.
  apply firsts_filter. intros y. rewrite elem_of_app, list_elem_of_singleton.
  tauto.
Qed.

Lemma elem_of_eliminate_multiples e l : e ∈ eliminate_multiples l ↔ e ∈ l.
Proof.
  rewrite eliminate_multiples_firsts, elem_of_firsts.
  split; [by intros [? _] | intros ?; split; [done | apply not_elem_of_nil]].
Qed.

Lemma NoDup_eliminate_multiples l : NoDup (eliminate_multiples l).
Proof. rewrite eliminate_multiples_firsts. apply NoDup_firsts. Qed.

Lemma eliminate_multiples_length l : length (eliminate_multiples l) ≤ length l.
Proof.
  rewrite eliminate_multiples_firsts. generalize (@nil A) as pre.
  induction l as [|x l IH]; intros pre; simpl; [done|].
  destruct (decide (x ∈ pre)); simpl; specialize (IH (pre ++ [x])); lia.
Qed.
End eliminate_multiples_facts.

(** ** Insertion-ordered dictionaries *)

Section dict_facts.
Context {K V : Type} `{EqDecision K}.
Implicit Types (k : K) (v : V) (d : list (K * V)).

Lemma dict_get_None k d : dict_get k d = None ↔ k ∉ dict_keys d.
Proof.
  unfold dict_keys. induction d as [|[k' v'] d IH]; simpl.
  - split; [intros _; apply not_elem_of_nil | done].
  - rewrite not_elem_of_cons. destruct (decide (k' = k)) as [->|Hne].
    + split; [done | intros [? _]; done].
    + rewrite IH. simpl. intuition congruence.
Qed.

Lemma dict_get_Some k v d :
  dict_get k d = Some v →
  ∃ d1 d2, d = d1 ++ (k, v) :: d2 ∧ k ∉ dict_keys d1.
Proof.
  unfold dict_keys. induction d as [|[k' v'] d IH]; simpl; [done|].
  destruct (decide (k' = k)) as [->|Hne].
  - intros [= ->]. exists [], d. split; [done | apply not_elem_of_nil].
  - intros Hget. destruct (IH Hget) as (d1 & d2 & -> & Hk).
    exists ((k', v') :: d1), d2. split; [done|].
    rewrite fmap_cons, not_elem_of_cons. simpl. split; [congruence|done].
Qed.

Lemma dict_set_fresh k v d : k ∉ dict_keys d → dict_set k v d = d ++ [(k, v)].
Proof.
  unfold dict_keys. induction d as [|[k' v'] d IH]; simpl; [done|].
  rewrite not_elem_of_cons. intros [Hne Hk].
  rewrite decide_False by congruence. by rewrite IH.
Qed.

Lemma dict_set_known k v v0 d1 d2 :
  k ∉ dict_keys d1 →
  dict_set k v (d1 ++ (k, v0) :: d2) = d1 ++ (k, v) :: d2.
Proof.
  unfold dict_keys. induction d1 as [|[k' v'] d1 IH]; simpl.
  - intros _. by rewrite decide_True.
  - rewrite not_elem_of_cons. intros [Hne Hk].
    rewrite decide_False by congruence. by rewrite IH.
Qed.

Lemma dict_get_app_fresh k v d :
  k ∉ dict_keys d → dict_get k (d ++ [(k, v)]) = Some v.
Proof.
  unfold dict_keys. induction d as [|[k' v'] d IH]; simpl.
  - intros _. by rewrite decide_True.
  - rewrite not_elem_of_cons. intros [Hne Hk].
    rewrite decide_False by congruence. by apply IH.
Qed.
End dict_facts.

(** ** The scheduler: what every sweep preserves *)

Lemma sched_inv_init : sched_inv 0 ([], []).
Proof.
  split; simpl; try constructor.
  exists []. split; [done|]. split; [constructor | done].
Qed.

Lemma sched_inv_weaken (n m : nat) (st : sched_state) :
  n ≤ m → sched_inv n st → sched_inv m st.
Proof.
  intros Hnm [H1 H2 H3 H4]. split; try done.
  eapply Forall_impl; [exact H2|]. simpl. lia.
Qed.

Lemma all_entries_app (d1 d2 : list (nat * run_dict)) :
  all_entries (d1 ++ d2) = all_entries d1 ++ all_entries d2.
Proof. unfold all_entries, dict_values. by rewrite !fmap_app, concat_app. Qed.

Lemma all_entries_cons (k : nat) (s : run_dict) (d : list (nat * run_dict)) :
  all_entries ((k, s) :: d) = dict_values s ++ all_entries d.
Proof. done. Qed.

(** Placing an event on a free register of run [cur_run]. *)
Lemma place_inv (cur_run : nat) (e : event_tpl) (r : option string)
    (scheduled_runs : list (nat * run_dict)) (scheduled_events : list event_tpl) :
  let runs1 := dict_setdefault cur_run [] scheduled_runs in
  let s := default [] (dict_get cur_run runs1) in
  sched_inv (S cur_run) (scheduled_runs, scheduled_events) →
  candidate (e, r) →
  r ∉ dict_keys s →
  sched_inv (S cur_run)
    (dict_set cur_run (dict_set r (e.1.1, r, e.2) s) runs1, scheduled_events ++ [e]).
Proof.
  intros runs1 s [Hkeys Hbelow Hruns (assign & Hfst & Hcand & Hperm)] Hr Hfree.
  simpl in *. subst runs1 s. unfold dict_setdefault in *.
  assert (Hassign : ∀ runs', all_entries runs' ≡ₚ all_entries scheduled_runs ++ [(e.1.1, r, e.2)] →
    ∃ assign' : list (event_tpl * option string),
      assign'.*1 = scheduled_events ++ [e] ∧ Forall candidate assign' ∧
      all_entries runs' ≡ₚ entry_of <$> assign').
  { intros runs' Hruns'. exists (assign ++ [(e, r)]).
    rewrite fmap_app, Hfst. split; [done|]. split.
    - apply Forall_app. split; [done|]. by constructor.
    - by rewrite Hruns', Hperm, fmap_app. }
  destruct (dict_get cur_run scheduled_runs) as [s|] eqn:Hget.
  - rewrite Hget in *. simpl in *.
    destruct (dict_get_Some _ _ _ Hget) as (d1 & d2 & -> & Hd1).
    rewrite dict_set_known by done. rewrite dict_set_fresh by done.
    unfold dict_keys, dict_values in *.
    rewrite !fmap_app, !fmap_cons in *. simpl in *.
    apply Forall_app in Hruns as [Hr1 Hr2].
    apply Forall_cons in Hr2 as [(Hs1 & Hs2 & Hs3) Hr2].
    split; simpl.
    + unfold dict_keys. by rewrite fmap_app, fmap_cons.
    + unfold dict_keys. by rewrite fmap_app, fmap_cons.
    + unfold dict_values. rewrite fmap_app, fmap_cons. simpl.
      apply Forall_app. split; [done|]. constructor; [|done].
      repeat split.
      * unfold dict_keys. rewrite fmap_app. simpl.
        apply NoDup_app. split; [done|]. split; [|apply NoDup_singleton].
        intros x Hx ->%list_elem_of_singleton. done.
      * by destruct s.
      * apply Forall_app. split; [done|]. by constructor.
    + apply Hassign.
      rewrite !all_entries_app, !all_entries_cons.
      unfold dict_values. rewrite fmap_app. simpl.
      rewrite <- !app_assoc. do 2 apply Permutation_app_head.
      apply Permutation_app_comm.
  - apply dict_get_None in Hget as Hfresh.
    rewrite dict_get_app_fresh by done. simpl.
    rewrite (dict_set_known cur_run _ [] scheduled_runs []) by done.
    unfold dict_keys, dict_values in *.
    split; cbn [fst snd]; unfold dict_keys, dict_values; rewrite ?fmap_app;
      cbn [fmap list_fmap fst snd].
    + apply NoDup_app. split; [done|].
      split; [|apply NoDup_singleton].
      intros x Hx ->%list_elem_of_singleton. done.
    + apply Forall_app. split; [done|].
      constructor; [lia | constructor].
    + apply Forall_app. split; [done|].
      constructor; [|constructor]. repeat split.
      * simpl. apply NoDup_singleton.
      * done.
      * by constructor.
    + apply Hassign. rewrite all_entries_app. unfold all_entries at 2. simpl. done.
Qed.

Lemma try_registers_inv (cur_run : nat) (e : event_tpl)
    (regs : list (option string)) (fin : ending) (st st' : sched_state) :
  sched_inv (S cur_run) st →
  Forall (λ r, candidate (e, r)) regs →
  try_registers cur_run e regs fin st = Returned st' →
  sched_inv (S cur_run) st' ∧ (st' = st ∨ st'.2 = st.2 ++ [e]).
Proof.
  revert st. induction regs as [|r regs IH]; intros st Hinv Hregs; simpl.
  - destruct fin; simpl; try done. intros [= <-]. auto.
  - destruct e as [[event registers] parameters], st as [runs sched].
    apply Forall_cons in Hregs as [Hr Hregs].
    destruct (decide (r ∈ _)) as [Hin|Hfree].
    + destruct (dict_get cur_run runs) as [s|] eqn:Hget.
      * unfold dict_setdefault in *. rewrite Hget in *. by apply IH.
      * exfalso. unfold dict_setdefault in Hin. rewrite Hget in Hin.
        apply dict_get_None in Hget. rewrite dict_get_app_fresh in Hin by done.
        simpl in Hin. by apply elem_of_nil in Hin.
    + intros [= <-]. split; [|by right].
      by apply (place_inv cur_run (event, registers, parameters) r runs sched).
Qed.

Lemma candidates_yielded (e : event_tpl) :
  Forall (λ r, candidate (e, r)) (yielded (register_options e.1.2)).
Proof. apply Forall_forall. intros r Hr. exact Hr. Qed.

Lemma sweep_inv (events l : list event_tpl) (cur_run : nat) (st st' : sched_state) :
  l ⊆ events →
  loop_inv events (S cur_run) st →
  sweep cur_run l st = Returned st' →
  loop_inv events (S cur_run) st' ∧ length st.2 ≤ length st'.2.
Proof.
  revert st. induction l as [|e l IH]; intros st Hl Hinv; simpl.
  - intros [= <-]. auto.
  - assert (Hl' : l ⊆ events) by (intros x Hx; apply Hl; by right).
    assert (He : e ∈ events) by (apply Hl; left).
    destruct (decide (e ∈ st.2)) as [Hin|Hnew]; [by apply IH|].
    destruct (try_registers _ _ _ _ _) as [st1| |] eqn:Etry; simpl; try done.
    destruct Hinv as (Hs & Hnd & Hsub).
    destruct (try_registers_inv _ _ _ _ _ _ Hs (candidates_yielded e) Etry)
      as [Hs1 Hst1].
    intros Hsw.
    assert (Hinv1 : loop_inv events (S cur_run) st1).
    { split; [done|]. destruct Hst1 as [->|Heq]; [done|]. rewrite Heq. split.
      - apply NoDup_app. split; [done|]. split; [|apply NoDup_singleton].
        intros x Hx ->%list_elem_of_singleton. done.
      - intros x [Hx| ->%list_elem_of_singleton]%elem_of_app; auto. }
    destruct (IH st1 Hl' Hinv1 Hsw) as [Hinv' Hlen]. split; [done|].
    destruct Hst1 as [->|Heq]; [done|]. rewrite Heq, length_app in Hlen. lia.
Qed.

(** A candidate register was on offer and the run was not yet there:
    the event goes on the first candidate. *)
Lemma try_registers_first (cur_run : nat) (e : event_tpl) (r : option string)
    (regs : list (option string)) (fin : ending) (st : sched_state) :
  cur_run ∉ dict_keys st.1 →
  ∃ st', try_registers cur_run e (r :: regs) fin st = Returned st' ∧
         st'.2 = st.2 ++ [e].
Proof.
  intros Hfresh. destruct e as [[event registers] parameters], st as [runs sched].
  simpl in *. apply dict_get_None in Hfresh as Hget.
  unfold dict_setdefault. rewrite Hget. rewrite dict_get_app_fresh by done.
  cbn [default dict_keys]. rewrite decide_False by apply not_elem_of_nil. eauto.
Qed.

Lemma sweep_progress (events l : list event_tpl) (cur_run : nat) (st st' : sched_state) :
  l ⊆ events →
  loop_inv events (S cur_run) st →
  cur_run ∉ dict_keys st.1 →
  (∀ e, e ∈ l → yielded (register_options e.1.2) ≠ []) →
  (∃ e, e ∈ l ∧ e ∉ st.2) →
  sweep cur_run l st = Returned st' →
  length st.2 < length st'.2.
Proof.
  revert st. induction l as [|e l IH]; intros st Hl Hinv Hfresh Hcand (e0 & He0 & Hnew0);
    simpl.
  - by apply elem_of_nil in He0.
  - assert (Hl' : l ⊆ events) by (intros x Hx; apply Hl; by right).
    destruct (decide (e ∈ st.2)) as [Hin|Hnew].
    + apply IH; try done.
      * intros x Hx. apply Hcand. by right.
      * apply elem_of_cons in He0 as [->|He0]; [done|]. eauto.
    + destruct (yielded (register_options e.1.2)) as [|r regs] eqn:Ey.
      { exfalso. by apply (Hcand e); [left|]. }
      destruct (try_registers_first cur_run e r regs
                  (finish (register_options e.1.2)) st Hfresh) as (st1 & Etry & Hst1).
      rewrite Etry. simpl. intros Hsw.
      assert (Hinv1 : loop_inv events (S cur_run) st1).
      { destruct Hinv as (Hs & Hnd & Hsub).
        assert (Hc : Forall (λ r0, candidate (e, r0)) (r :: regs)).
        { rewrite <- Ey. apply candidates_yielded. }
        destruct (try_registers_inv _ _ _ _ _ _ Hs Hc Etry) as [Hs1 _].
        split; [done|]. rewrite Hst1. split.
        - apply NoDup_app. split; [done|]. split; [|apply NoDup_singleton].
          intros x Hx ->%list_elem_of_singleton. done.
        - intros x [Hx| ->%list_elem_of_singleton]%elem_of_app; auto.
          apply Hl. left. }
      destruct (sweep_inv _ _ _ _ _ Hl' Hinv1 Hsw) as [_ Hlen].
      rewrite Hst1, length_app in Hlen. simpl in Hlen. lia.
Qed.

Lemma try_registers_settled (cur_run : nat) (e : event_tpl)
    (regs : list (option string)) (fin : ending) (st : sched_state) :
  fin ≠ Unfinished → try_registers cur_run e regs fin st ≠ Spinning.
Proof.
  intros Hfin. revert st. induction regs as [|r regs IH]; intros st; simpl.
  - by destruct fin.
  - destruct e as [[event registers] parameters], st as [runs sched].
    destruct (decide _); [apply IH | done].
Qed.

Lemma sweep_settled (cur_run : nat) (l : list event_tpl) (st : sched_state) :
  sweep cur_run l st ≠ Spinning.
Proof.
  revert st. induction l as [|e l IH]; intros st; simpl; [done|].
  destruct (decide _); [apply IH|].
  destruct (try_registers _ _ _ _ _) as [st1| |] eqn:Etry; simpl; [apply IH|done|].
  by apply try_registers_settled in Etry; [|apply register_options_settled].
Qed.

(** ** The scheduler: the loop *)

Lemma loop_inv_weaken (events : list event_tpl) (n m : nat) (st : sched_state) :
  n ≤ m → loop_inv events n st → loop_inv events m st.
Proof. intros Hnm (Hs & Hrest). split; [by eapply sched_inv_weaken | done]. Qed.

Lemma loop_inv_length (events : list event_tpl) (n : nat) (st : sched_state) :
  loop_inv events n st → length st.2 ≤ length events.
Proof.
  intros (_ & Hnd & Hsub). apply submseteq_length. by apply NoDup_submseteq.
Qed.

Lemma schedule_loop_inv (events : list event_tpl) (fuel cur_run : nat)
    (st st' : sched_state) :
  loop_inv events cur_run st →
  schedule_loop fuel events cur_run st = Returned st' →
  (∃ bound, loop_inv events bound st') ∧ length st'.2 = length events.
Proof.
  revert cur_run st. induction fuel as [|fuel IH]; intros cur_run st Hinv; simpl;
    (destruct (decide (length st.2 = length events)) as [Hlen|Hlen];
     [intros [= <-]; eauto | try done]).
  destruct (sweep cur_run events st) as [st1| |] eqn:Esw; simpl; try done.
  apply (loop_inv_weaken _ _ (S cur_run)) in Hinv; [|lia].
  destruct (sweep_inv events events cur_run st st1) as [Hinv1 _]; try done.
  by apply IH.
Qed.

(** More sweeps than needed are never run. *)
Lemma schedule_loop_mono (events : list event_tpl) (fuel k cur_run : nat)
    (st st' : sched_state) :
  schedule_loop fuel events cur_run st = Returned st' →
  schedule_loop (fuel + k) events cur_run st = Returned st'.
Proof.
  revert cur_run st. induction fuel as [|fuel IH]; intros cur_run st; simpl.
  - destruct (decide _) as [Hlen|Hlen]; [|done]. intros [= <-].
    destruct k; simpl; by rewrite decide_True.
  - destruct (decide _); [done|].
    destruct (sweep cur_run events st) as [st1| |]; simpl; try done. apply IH.
Qed.

Lemma schedule_loop_fuel (events : list event_tpl) (f1 f2 cur_run : nat)
    (st st1 st2 : sched_state) :
  schedule_loop f1 events cur_run st = Returned st1 →
  schedule_loop f2 events cur_run st = Returned st2 →
  st1 = st2.
Proof.
  intros H1 H2.
  apply (schedule_loop_mono _ _ f2) in H1. apply (schedule_loop_mono _ _ f1) in H2.
  rewrite (Nat.add_comm f2 f1) in H2. congruence.
Qed.

Lemma unscheduled_event (events : list event_tpl) (n : nat) (st : sched_state) :
  NoDup events →
  loop_inv events n st →
  length st.2 ≠ length events →
  ∃ e, e ∈ events ∧ e ∉ st.2.
Proof.
  intros Hnd Hinv Hlen.
  destruct (decide (Forall (λ e, e ∈ st.2) events)) as [Hall|Hnot].
  - exfalso. apply Hlen. apply Nat.le_antisymm; [by eapply loop_inv_length|].
    apply submseteq_length, NoDup_submseteq; [done|]. by apply Forall_forall.
  - apply not_Forall_Exists in Hnot; [|apply _].
    apply Exists_exists in Hnot as (e & He & Hne). eauto.
Qed.

Lemma fresh_run_index (bound : nat) (st : sched_state) :
  sched_inv bound st → bound ∉ dict_keys st.1.
Proof.
  intros [_ Hbelow _ _] Hin.
  eapply Forall_forall in Hbelow; [|exact Hin]. simpl in Hbelow. lia.
Qed.

(** When every event has a candidate register each sweep places at
    least one event, so the loop is over after as many sweeps as there
    are events left. *)
Lemma schedule_loop_settled (events : list event_tpl) (fuel cur_run : nat)
    (st : sched_state) :
  NoDup events →
  (∀ e, e ∈ events → yielded (register_options e.1.2) ≠ []) →
  loop_inv events cur_run st →
  length events ≤ length st.2 + fuel →
  schedule_loop fuel events cur_run st ≠ Spinning.
Proof.
  intros Hnd Hcand. revert cur_run st.
  induction fuel as [|fuel IH]; intros cur_run st Hinv Hfuel; simpl;
    (destruct (decide (length st.2 = length events)) as [Hlen|Hlen]; [done|]).
  - apply loop_inv_length in Hinv. lia.
  - destruct (sweep cur_run events st) as [st1| |] eqn:Esw; simpl; [|done|].
    + assert (Hfresh : cur_run ∉ dict_keys st.1) by (apply fresh_run_index, Hinv).
      destruct (unscheduled_event events cur_run st) as (e & He & Hne); try done.
      apply (loop_inv_weaken _ _ (S cur_run)) in Hinv; [|lia].
      destruct (sweep_inv events events cur_run st st1) as [Hinv1 _]; try done.
      assert (length st.2 < length st1.2).
      { eapply sweep_progress; eauto. }
      apply IH; [done | lia].
    + by apply sweep_settled in Esw.
Qed.

Lemma run_ok_registers (s : run_dict) :
  run_ok s → NoDup ((λ entry : run_entry, entry.1.2) <$> dict_values s).
Proof.
  intros (Hnd & _ & Hreg).
  assert (Heq : (λ entry : run_entry, entry.1.2) <$> dict_values s = dict_keys s).
  { unfold dict_values, dict_keys. clear Hnd.
    induction Hreg as [|[k en] s Hk Hs IH]; [done|].
    rewrite !fmap_cons, IH. simpl in *. by rewrite Hk. }
  by rewrite Heq.
Qed.

Lemma run_ok_nonempty (s : run_dict) : run_ok s → dict_values s ≠ [].
Proof. intros (_ & Hne & _). by destruct s. Qed.

Lemma nonempty_runs_length {A : Type} (ls : list (list A)) :
  Forall (λ l, l ≠ []) ls → length ls ≤ length (concat ls).
Proof.
  induction 1 as [|l ls Hl Hls IH]; simpl; [done|].
  rewrite length_app. destruct l; [done|]. simpl. lia.
Qed.

(** What the state of a finished loop says about the runs built from
    it. *)
Lemma build_minimal_runs_inv (fuel : nat) (events : list event_tpl)
    (runs : list (list run_entry)) :
  build_minimal_runs fuel events = Returned runs →
  ∃ st bound,
    schedule_loop fuel (eliminate_multiples events) 0 ([], []) = Returned st ∧
    runs = dict_values <$> dict_values st.1 ∧
    loop_inv (eliminate_multiples events) bound st ∧
    length st.2 = length (eliminate_multiples events).
Proof.
  unfold build_minimal_runs.
  destruct (schedule_loop _ _ _ _) as [st| |] eqn:Eloop; simpl; try done.
  intros [= <-].
  destruct (schedule_loop_inv _ _ _ _ _
              (conj sched_inv_init (conj (NoDup_nil_2) (list_subseteq_nil _))) Eloop)
    as [[bound Hinv] Hlen].
  eauto 10.
Qed.

(** ** The scheduler: the runs *)

(** C1: when [build_minimal_runs] returns, (1) no register is used
    twice within a run; (2) the input is de-duplicated with the first
    occurrence of each event winning, and the entries of all runs taken
    together are the de-duplicated events, one entry for each event, on
    a register its descriptor expands to; (3) the result does not
    depend on anything but the input list: any two returns for the same
    list are equal. *)
Theorem build_minimal_runs_correct (fuel : nat) (events : list event_tpl)
    (runs : list (list run_entry)) :
  build_minimal_runs fuel events = Returned runs →
  Forall (λ run, NoDup (register_of <$> run)) runs ∧
  (eliminate_multiples events = firsts [] events ∧
   ∃ assign : list (event_tpl * option string),
     assign.*1 ≡ₚ eliminate_multiples events ∧
     Forall candidate assign ∧
     concat runs ≡ₚ entry_of <$> assign) ∧
  (∀ fuel' runs', build_minimal_runs fuel' events = Returned runs' → runs' = runs).
Proof.
  intros Hret.
  destruct (build_minimal_runs_inv _ _ _ Hret)
    as (st & bound & Hloop & -> & ([_ _ Hruns Hassign] & Hnd & Hsub) & Hlen).
  split; [|split; [split|]].
  - apply Forall_fmap. eapply Forall_impl; [exact Hruns|].
    intros s Hs. by apply run_ok_registers.
  - apply eliminate_multiples_firsts.
  - destruct Hassign as (assign & Hfst & Hcand & Hperm).
    exists assign. split; [|done]. rewrite Hfst.
    apply submseteq_length_Permutation; [by apply NoDup_submseteq | lia].
  - intros fuel' runs' Hret'.
    destruct (build_minimal_runs_inv _ _ _ Hret') as (st' & _ & Hloop' & -> & _).
    by rewrite (schedule_loop_fuel _ _ _ _ _ _ _ Hloop Hloop').
Qed.

Lemma five_events_runs : build_minimal_runs 3 five_events = Returned five_runs.
Proof. vm_compute. reflexivity. Qed.

Lemma build_minimal_runs_correct_witness :
  build_minimal_runs 3 five_events = Returned five_runs ∧
  Forall (λ run, NoDup (register_of <$> run)) five_runs.
Proof.
  assert (Hruns : build_minimal_runs 3 five_events = Returned five_runs)
    by (vm_compute; reflexivity).
  split; [exact Hruns|].
  apply (build_minimal_runs_correct 3 five_events five_runs Hruns).
Defined.

(** C10: when every event has at least one candidate register, the
    loop is over within as many sweeps as there are events (it returns
    or raises), and whenever it returns, no run is empty and there are
    at most as many runs as de-duplicated events. *)
Theorem build_minimal_runs_nonempty (events : list event_tpl) :
  (∀ e, e ∈ events → yielded (register_options e.1.2) ≠ []) →
  build_minimal_runs (length events) events ≠ Spinning ∧
  ∀ fuel runs, build_minimal_runs fuel events = Returned runs →
    Forall (λ run, run ≠ []) runs ∧
    length runs ≤ length (eliminate_multiples events).
Proof.
  intros Hcand. split.
  - unfold build_minimal_runs.
    destruct (schedule_loop _ _ _ _) as [st| |] eqn:Eloop; simpl; try done.
    exfalso. revert Eloop. apply schedule_loop_settled.
    + apply NoDup_eliminate_multiples.
    + intros e He. apply Hcand. by apply elem_of_eliminate_multiples.
    + split; [apply sched_inv_init|]. split; [constructor | apply list_subseteq_nil].
    + simpl. apply eliminate_multiples_length.
  - intros fuel runs Hret.
    destruct (build_minimal_runs_inv _ _ _ Hret)
      as (st & bound & Hloop & -> & ([_ _ Hruns Hassign] & Hnd & Hsub) & Hlen).
    assert (Hne : Forall (λ run : list run_entry, run ≠ []) (dict_values <$> dict_values st.1)).
    { apply Forall_fmap. eapply Forall_impl; [exact Hruns|].
      intros s Hs. by apply run_ok_nonempty. }
    split; [done|].
    destruct Hassign as (assign & Hfst & _ & Hperm).
    apply nonempty_runs_length in Hne.
    unfold all_entries in Hperm. rewrite Hperm in Hne.
    rewrite !length_fmap in Hne. by rewrite <- Hlen, <- Hfst, !length_fmap.
Qed.

Lemma build_minimal_runs_nonempty_witness :
  build_minimal_runs (length five_events) five_events ≠ Spinning ∧
  Forall (λ run : list run_entry, run ≠ []) five_runs ∧
  length five_runs ≤ length (eliminate_multiples five_events).
Proof.
  assert (Hcand : ∀ e, e ∈ five_events → yielded (register_options e.1.2) ≠ []).
  { intros e He. unfold five_events in He.
    repeat (apply elem_of_cons in He as [->|He]; [vm_compute; discriminate|]).
    by apply elem_of_nil in He. }
  destruct (build_minimal_runs_nonempty five_events Hcand) as [Hend Hruns].
  split; [exact Hend|]. apply (Hruns 3 five_runs). vm_compute. reflexivity.
Defined.

(** ** The scheduler: an event without a candidate register *)

(** An event whose descriptor yields nothing is never scheduled, so the
    loop never returns. *)
Lemma build_minimal_runs_unplaceable (fuel : nat) (events : list event_tpl)
    (e : event_tpl) (runs : list (list run_entry)) :
  e ∈ events →
  yielded (register_options e.1.2) = [] →
  build_minimal_runs fuel events ≠ Returned runs.
Proof.
  intros He Hnone Hret.
  destruct (build_minimal_runs_inv _ _ _ Hret)
    as (st & bound & Hloop & -> & ([_ _ _ Hassign] & Hnd & Hsub) & Hlen).
  destruct Hassign as (assign & Hfst & Hcand & _).
  assert (Hperm : st.2 ≡ₚ eliminate_multiples events).
  { apply submseteq_length_Permutation; [by apply NoDup_submseteq | lia]. }
  apply elem_of_eliminate_multiples in He. rewrite <- Hperm, <- Hfst in He.
  apply list_elem_of_fmap in He as ([e' r] & -> & Hin).
  eapply Forall_forall in Hcand; [|exact Hin].
  unfold candidate in Hcand. simpl in *. rewrite Hnone in Hcand.
  by apply elem_of_nil in Hcand.
Qed.

Lemma unplaceable_event_options :
  register_options unplaceable_event.1.2 = Gen [] StopIteration.
Proof. vm_compute. reflexivity. Qed.

Lemma schedule_loop_unplaceable (fuel cur_run : nat) :
  schedule_loop fuel [unplaceable_event] cur_run ([], []) = Spinning.
Proof.
  revert cur_run. induction fuel as [|fuel IH]; intros cur_run; [done|].
  cbn [schedule_loop sweep]. simpl length. rewrite decide_False by done.
  rewrite decide_False by apply not_elem_of_nil.
  rewrite unplaceable_event_options. simpl. apply IH.
Qed.

(** C2: on an event whose range [b-a] is empty the descriptor has no
    candidate register at all; every sweep leaves the event unscheduled
    and the loop is still going after any number of sweeps: nothing
    detects the event and no error is raised. *)
Theorem build_minimal_runs_spins (fuel : nat) :
  register_options "PMC[b-a]" = Gen [] StopIteration ∧
  build_minimal_runs fuel [unplaceable_event] = Spinning.
Proof.
  split; [exact unplaceable_event_options|].
  unfold build_minimal_runs.
  replace (eliminate_multiples [unplaceable_event]) with [unplaceable_event]
    by (vm_compute; reflexivity).
  by rewrite schedule_loop_unplaceable.
Qed.

(** ** Rendering events *)

Lemma hex_digit_value_digit (n : N) :
  (n < 16)%N → hex_digit_value (hex_digit n) = Some n.
Proof.
  intros Hn. rewrite <- (N2Nat.id n) at 2. unfold hex_digit.
  assert (Hlt : N.to_nat n < 16) by lia.
  generalize dependent (N.to_nat n). clear. intros k Hk.
  do 16 (destruct k as [|k]; [reflexivity|]). lia.
Qed.

Lemma hex_value_digits_fuel (fuel : nat) (n : N) (acc : string) :
  (n < 16 ^ N.of_nat fuel)%N →
  hex_value 0 (hex_digits_fuel fuel n acc) = hex_value n acc.
Proof.
  revert n acc. induction fuel as [|fuel IH]; intros n acc Hn.
  - simpl in *. by replace n with 0%N by lia.
  - assert (Hdiv : (n / 16 < 16 ^ N.of_nat fuel)%N).
    { apply N.Div0.div_lt_upper_bound.
      rewrite Nat2N.inj_succ, N.pow_succ_r' in Hn. lia. }
    assert (Hmod : (n mod 16 < 16)%N) by (apply N.mod_lt; lia).
    assert (Hn16 : (16 * (n / 16) + n mod 16 = n)%N)
      by (symmetry; apply N.div_mod; lia).
    cbn [hex_digits_fuel]. destruct (N.eqb_spec (n / 16) 0) as [Hz|Hz].
    + cbn [hex_value]. rewrite hex_digit_value_digit by done. simpl.
      f_equal. rewrite Hz in Hn16. lia.
    + rewrite IH by done. cbn [hex_value].
      rewrite hex_digit_value_digit by done. simpl. by rewrite Hn16.
Qed.

(** The digits [hex] writes are lowercase hexadecimal digits and
    denote the number. *)
Lemma hex_value_digits (n : N) : hex_value 0 (hex_digits n) = Some n.
Proof.
  unfold hex_digits. rewrite hex_value_digits_fuel; [done|].
  pose proof (N.size_gt n) as Hsize.
  rewrite Nat2N.inj_succ, N2Nat.id.
  eapply N.lt_le_trans; [exact Hsize|].
  rewrite N.pow_succ_r'.
  transitivity (16 ^ N.size n)%N; [|lia].
  apply N.pow_le_mono_l. lia.
Qed.

Lemma hex_nonneg (n : N) : hex (Z.of_N n) = "0x" +:+ hex_digits n.
Proof.
  unfold hex. rewrite Zabs2N.id. by destruct n.
Qed.

Lemma hex_neg (p : positive) : hex (Z.neg p) = "-0x" +:+ hex_digits (N.pos p).
Proof. done. Qed.

Global Instance item_le_total : Total item_le.
Proof. intros x y. apply String.leb_total. Qed.

Lemma sorted_items_sorted (d : params) : Sorted item_le (sorted_items d).
Proof. apply Sorted_merge_sort, _. Qed.

Lemma sorted_items_perm (d : params) : sorted_items d ≡ₚ map_to_list d.
Proof. apply merge_sort_Permutation. Qed.

Lemma sorted_items_empty : sorted_items ∅ = [].
Proof. unfold sorted_items. by rewrite map_to_list_empty. Qed.

Lemma str_join_strings (sep : string) (l : list string) :
  str_join sep (Some <$> l) = Ok (join sep l).
Proof. unfold str_join. by rewrite mapM_fmap_Some. Qed.

Lemma eventstr_render (event register : string) (parameters : option params) :
  eventstr (event, Some register, parameters)
  = Ok (join ":" (event :: register :: param_segments parameters)).
Proof.
  unfold eventstr, param_segments.
  rewrite <- str_join_strings. f_equal.
  destruct parameters as [d|]; [|done].
  case_bool_decide as Hd.
  - subst d. by rewrite sorted_items_empty.
  - rewrite !fmap_cons. simpl. f_equal. f_equal. by rewrite list_fmap_compose.
Qed.

(** C7 (as the code has it): the event string is the name, the register
    and one segment per parameter, joined by colons; the segments follow
    the sorted parameter names; a parameter without value is its name,
    a non-negative integer value adds [=0x] and its lowercase
    hexadecimal digits, and a negative one adds [=-0x] and the digits of
    its magnitude.  The two documented examples come out as written. *)
Theorem eventstr_format :
  (∀ (event register : string) (parameters : option params),
     eventstr (event, Some register, parameters)
     = Ok (join ":" (event :: register :: param_segments parameters))) ∧
  (∀ d : params,
     param_segments (Some d) = param_segment <$> sorted_items d ∧
     Sorted item_le (sorted_items d) ∧ sorted_items d ≡ₚ map_to_list d) ∧
  (∀ k : string, param_segment (k, None) = k) ∧
  (∀ (k : string) (n : N),
     param_segment (k, Some (Z.of_N n)) = k +:+ "=0x" +:+ hex_digits n ∧
     hex_value 0 (hex_digits n) = Some n) ∧
  (∀ (k : string) (p : positive),
     param_segment (k, Some (Z.neg p)) = k +:+ "=-0x" +:+ hex_digits (N.pos p)) ∧
  eventstr ("L1D_REPLACEMENT", Some "PMC0", None) = Ok "L1D_REPLACEMENT:PMC0" ∧
  eventstr ("MEM_UOPS_RETIRED_LOADS", Some "PMC3",
            Some (<["EDGEDETECT" := None]> {[ "THRESHOLD" := Some 2342%Z ]}))
  = Ok "MEM_UOPS_RETIRED_LOADS:PMC3:EDGEDETECT:THRESHOLD=0x926".
Proof.
  split; [exact eventstr_render|].
  split; [intros d; split; [done|]; split;
          [apply sorted_items_sorted | apply sorted_items_perm]|].
  split; [done|].
  split; [intros k n; split; [|apply hex_value_digits];
          unfold param_segment; simpl; by rewrite hex_nonneg|].
  split; [done|].
  split; vm_compute; reflexivity.
Qed.

(** C7 (as stated) fails on a negative value: the sign comes between
    the [=] and the [0x]. *)
Lemma eventstr_negative_parameter :
  eventstr ("UOPS_RETIRED", Some "PMC0", Some {[ "THRESHOLD" := Some (-1)%Z ]})
  = Ok "UOPS_RETIRED:PMC0:THRESHOLD=-0x1" ∧
  ¬ ∃ digits : string,
      eventstr ("UOPS_RETIRED", Some "PMC0", Some {[ "THRESHOLD" := Some (-1)%Z ]})
      = Ok ("UOPS_RETIRED:PMC0:THRESHOLD=0x" +:+ digits).
Proof.
  assert (Heq : eventstr ("UOPS_RETIRED", Some "PMC0",
                          Some {[ "THRESHOLD" := Some (-1)%Z ]})
                = Ok "UOPS_RETIRED:PMC0:THRESHOLD=-0x1") by (vm_compute; reflexivity).
  split; [exact Heq|]. intros [digits Hd]. rewrite Heq in Hd.
  simpl in Hd. discriminate.
Qed.

(** A run entry on the [None] register cannot be rendered. *)
Lemma eventstr_no_register (event : string) (parameters : option params) :
  eventstr (event, None, parameters) = Raise TypeError.
Proof.
  unfold eventstr, str_join.
  destruct parameters as [d|]; [case_bool_decide|]; done.
Qed.

(** * Further properties *)

(** ** Generators as lists *)

Lemma gen_seq_nil_l {A : Type} (g : generator A) : gen_seq gen_nil g = g.
Proof. by destruct g. Qed.

Lemma gen_seq_nil_r {A : Type} (g : generator A) : gen_seq g gen_nil = g.
Proof.
  destruct g as [ys []]; unfold gen_seq; simpl; try done. by rewrite app_nil_r.
Qed.

Lemma gen_seq_assoc {A : Type} (g1 g2 g3 : generator A) :
  gen_seq g1 (gen_seq g2 g3) = gen_seq (gen_seq g1 g2) g3.
Proof.
  destruct g1 as [y1 []], g2 as [y2 []]; unfold gen_seq; simpl; try done.
  by rewrite app_assoc.
Qed.

Lemma gen_for_app {A B : Type} (l1 l2 : list B) (body : B → generator A) :
  gen_for (l1 ++ l2) body = gen_seq (gen_for l1 body) (gen_for l2 body).
Proof.
  induction l1 as [|x l1 IH]; simpl; [by rewrite gen_seq_nil_l|].
  by rewrite IH, gen_seq_assoc.
Qed.

Lemma gen_seq_of_list {A : Type} (l1 l2 : list A) :
  gen_seq (gen_of_list l1) (gen_of_list l2) = gen_of_list (l1 ++ l2).
Proof. done. Qed.

Lemma gen_for_of_list {A B : Type} (l : list B) (body : B → generator A)
    (f : B → list A) :
  (∀ x, x ∈ l → body x = gen_of_list (f x)) →
  gen_for l body = gen_of_list (l ≫= f).
Proof.
  induction l as [|x l IH]; intros Hb; simpl; [done|].
  rewrite Hb by left. rewrite IH by (intros y Hy; apply Hb; by right). done.
Qed.

Lemma gen_for_gen_of_list {A B : Type} (l : list B) (body : B → generator A)
    (f : B → list A) :
  (∀ x, x ∈ l → body x = gen_of_list (f x)) →
  gen_for_gen (gen_of_list l) body = gen_of_list (l ≫= f).
Proof.
  intros Hb. unfold gen_for_gen. simpl. rewrite (gen_for_of_list _ _ f) by done.
  apply (gen_seq_nil_r (gen_of_list _)).
Qed.

(** ** Bracket groups *)

Lemma str_index_get (c : ascii) (s : string) (i : nat) :
  str_index c s = Some i → str_get i s = Some c.
Proof.
  revert i. induction s as [|d s IH]; intros i; simpl; [done|].
  destruct (Ascii.eqb_spec c d) as [->|Hne]; [by intros [= <-]|].
  destruct (str_index c s) as [j|]; simpl; [|done].
  intros [= <-]. by apply IH.
Qed.

Lemma str_index_lt (c : ascii) (s : string) (i : nat) :
  str_index c s = Some i → i < String.length s.
Proof.
  revert i. induction s as [|d s IH]; intros i; simpl; [done|].
  destruct (Ascii.eqb c d); [intros [= <-]; lia|].
  destruct (str_index c s) as [j|]; simpl; [|done].
  intros [= <-]. specialize (IH j eq_refl). lia.
Qed.

Lemma str_get_lt (s : string) (i : nat) :
  i < String.length s → is_Some (str_get i s).
Proof.
  revert i. induction s as [|d s IH]; intros i Hi; simpl in *; [lia|].
  destruct i; [eauto|]. apply IH. lia.
Qed.

Lemma is_alnum_index (c : ascii) :
  is_alnum c = true → is_Some (str_index c ordered_chars).
Proof.
  destruct c as [[] [] [] [] [] [] [] []]; vm_compute; intros; try discriminate; eauto.
Qed.

(** The characters of [ordered_chars] at the positions [ks], all of
    them within the string. *)
Lemma mapM_str_get (s : string) (ks : list nat) :
  Forall (λ k, k < String.length s) ks →
  ∃ cs, mapM (λ k, str_get k s) ks = Some cs.
Proof.
  intros Hks. apply (mapM_is_Some_2 (λ k, str_get k s)).
  eapply Forall_impl; [exact Hks|]. intros k Hk. by apply str_get_lt.
Qed.

Lemma gen_for_range (ks : list nat) (cs : list ascii) :
  mapM (λ k, str_get k ordered_chars) ks = Some cs →
  gen_for ks (λ k, match str_get k ordered_chars with
                   | Some c => gen_yield (char c)
                   | None => gen_raise IndexError
                   end)
  = gen_of_list (char <$> cs).
Proof.
  intros Hcs. apply mapM_Some_1 in Hcs.
  induction Hcs as [|k c ks cs Hk Hks IH]; simpl; [done|].
  rewrite Hk, IH. done.
Qed.

Lemma group_range_chars (start stop : ascii) :
  is_alnum start = true → is_alnum stop = true →
  ∃ (i j : nat) (cs : list ascii),
    str_index start ordered_chars = Some i ∧
    str_index stop ordered_chars = Some j ∧
    mapM (λ k, str_get k ordered_chars) (seq i (j + 1 - i)) = Some cs ∧
    group_range start stop = gen_of_list (char <$> cs).
Proof.
  intros [i Hi]%is_alnum_index [j Hj]%is_alnum_index.
  pose proof (str_index_lt _ _ _ Hj) as Hjlt.
  destruct (mapM_str_get ordered_chars (seq i (j + 1 - i))) as [cs Hcs].
  { apply Forall_forall. intros k Hk%elem_of_seq. lia. }
  exists i, j, cs. do 3 (split; [done|]).
  unfold group_range. rewrite Hi, Hj. by apply gen_for_range.
Qed.

(** X: a range [x-y] between alphanumeric characters never raises: it
    yields the characters of the alphabet from the position of [x] to
    the position of [y], both included, in order; none when [y] comes
    before [x]. *)
Theorem group_range_slice (start stop : ascii) :
  is_alnum start = true → is_alnum stop = true →
  ∃ (i j : nat) (cs : list ascii),
    str_index start ordered_chars = Some i ∧
    str_index stop ordered_chars = Some j ∧
    mapM (λ k, str_get k ordered_chars) (seq i (j + 1 - i)) = Some cs ∧
    group_range start stop = gen_of_list (char <$> cs) ∧
    length cs = j + 1 - i ∧
    (i ≤ j → head cs = Some start ∧ last cs = Some stop).
Proof.
  intros Hstart Hstop.
  destruct (group_range_chars start stop Hstart Hstop)
    as (i & j & cs & Hi & Hj & Hcs & Hrange).
  exists i, j, cs. do 4 (split; [done|]).
  apply mapM_Some_1 in Hcs.
  split; [apply Forall2_length in Hcs; by rewrite length_seq in Hcs|].
  intros Hij. split.
  - replace (j + 1 - i) with (S (j - i)) in Hcs by lia. simpl in Hcs.
    apply Forall2_cons_inv_l in Hcs as (c & cs' & Hc & _ & ->).
    rewrite (str_index_get _ _ _ Hi) in Hc. simpl. congruence.
  - replace (j + 1 - i) with (j - i + 1) in Hcs by lia. rewrite seq_app in Hcs.
    apply Forall2_app_inv_l in Hcs as (cs1 & cs2 & _ & Hlast & ->). simpl in Hlast.
    apply Forall2_cons_inv_l in Hlast as (c & cs' & Hc & Hnil & ->).
    apply Forall2_nil_inv_l in Hnil as ->.
    replace (i + (j - i)) with j in Hc by lia.
    rewrite (str_index_get _ _ _ Hj) in Hc. rewrite last_snoc. congruence.
Qed.

Lemma group_range_slice_witness :
  ∃ (i j : nat) (cs : list ascii),
    str_index "7" ordered_chars = Some i ∧
    str_index "9" ordered_chars = Some j ∧
    mapM (λ k, str_get k ordered_chars) (seq i (j + 1 - i)) = Some cs ∧
    group_range "7" "9" = gen_of_list (char <$> cs) ∧
    length cs = j + 1 - i ∧
    (i ≤ j → head cs = Some "7"%char ∧ last cs = Some "9"%char).
Proof. apply (group_range_slice "7" "9"); reflexivity. Defined.

Lemma group_iterator_list_bounded (n : nat) (group : string) :
  String.length group ≤ n →
  ∃ cs : list ascii, group_iterator group = gen_of_list (char <$> cs).
Proof.
  revert group. induction n as [|n IH]; intros [|c rest] Hlen; simpl in *;
    try lia; try (by exists []).
  assert (Hsingle : ∃ cs : list ascii,
    gen_seq (if is_dot c then gen_yield (char c) else gen_nil) (group_iterator rest)
    = gen_of_list (char <$> cs)).
  { destruct (IH rest) as [cs Hcs]; [lia|]. rewrite Hcs.
    destruct (is_dot c); [by exists (c :: cs) | by exists cs]. }
  destruct rest as [|d1 rest1]; [exact Hsingle|].
  destruct d1 as [[] [] [] [] [] [] [] []], rest1 as [|d rest'];
    try exact Hsingle.
  destruct (is_alnum c && is_alnum d) eqn:Hal; [|exact Hsingle].
  apply andb_true_iff in Hal as [Hc Hd].
  destruct (group_range_chars c d Hc Hd) as (i & j & cs1 & _ & _ & _ & ->).
  destruct (IH rest') as [cs2 ->]; [simpl in Hlen; lia|].
  exists (cs1 ++ cs2). by rewrite gen_seq_of_list, fmap_app.
Qed.

(** X: [group_iterator] never raises, whatever the group: its
    enumeration ends normally and every value it yields is a string of
    one character. *)
Theorem group_iterator_total (group : string) :
  finish (group_iterator group) = StopIteration ∧
  Forall (λ s, String.length s = 1) (yielded (group_iterator group)).
Proof.
  destruct (group_iterator_list_bounded (String.length group) group) as [cs ->];
    [done|].
  split; [done|]. simpl. apply Forall_fmap, Forall_forall. by intros c _.
Qed.

(** X: a group without a dash yields its characters one by one, in
    order, leaving out newlines. *)
Theorem group_iterator_no_dash (group : string) :
  str_index "-" group = None →
  group_iterator group
  = gen_of_list (char <$> filter (λ c, is_dot c = true) (list_ascii_of_string group)).
Proof.
  induction group as [|c rest IH]; [done|].
  cbn [str_index]. destruct (Ascii.eqb "-" c) eqn:Hc; [done|].
  destruct (str_index "-" rest) as [k|] eqn:Hrest; [done|]. intros _.
  assert (Hsingle :
    gen_seq (if is_dot c then gen_yield (char c) else gen_nil) (group_iterator rest)
    = gen_of_list (char <$> filter (λ c, is_dot c = true)
                     (list_ascii_of_string (String c rest)))).
  { rewrite IH by done. cbn [list_ascii_of_string]. rewrite filter_cons.
    destruct (is_dot c); [by rewrite decide_True | by rewrite decide_False]. }
  cbn [group_iterator].
  destruct rest as [|d1 rest1]; [exact Hsingle|].
  cbn [str_index] in Hrest.
  destruct d1 as [[] [] [] [] [] [] [] []], rest1 as [|d rest'];
    try exact Hsingle; try discriminate Hrest.
Qed.

Lemma group_iterator_no_dash_witness :
  group_iterator "01ab" = gen_of_list ["0"; "1"; "a"; "b"].
Proof. by rewrite group_iterator_no_dash. Defined.

(** ** Descriptors *)

(** [register_options] without its fuel: [None] for the empty
    descriptor, then the alternatives one after the other. *)
Lemma register_options_eq (regdescr : string) :
  register_options regdescr
  = gen_seq (if regdescr is EmptyString then gen_yield None else gen_nil)
            (gen_for (split "|" regdescr) expand_alternative).
Proof.
  unfold register_options at 1. cbn [register_options_fuel]. f_equal.
  apply gen_for_ext. intros u Hu%split_length. unfold expand_alternative.
  destruct (match_token u) as [[tok rest]|] eqn:E; [|done].
  apply match_token_length in E. unfold gen_for_gen. f_equal.
  apply gen_for_ext. intros c _. destruct rest as [|r0 rest]; [done|].
  rewrite register_options_fuel_enough by lia. done.
Qed.

Lemma split_no_sep (sep : ascii) (s : string) :
  str_index sep s = None → split sep s = [s].
Proof.
  induction s as [|c s IH]; simpl; [done|].
  rewrite (Ascii.eqb_sym c sep). destruct (Ascii.eqb sep c); [done|].
  destruct (str_index sep s); [done|]. intros _. by rewrite IH.
Qed.

Lemma split_nonempty (sep : ascii) (s : string) : split sep s ≠ [].
Proof.
  destruct s as [|c s]; simpl; [done|].
  destruct (Ascii.eqb c sep); [done|]. by destruct (split sep s).
Qed.

Lemma split_app (sep : ascii) (a b : string) :
  split sep (a +:+ String sep b) = split sep a ++ split sep b.
Proof.
  induction a as [|c a IH]; simpl.
  - by rewrite Ascii.eqb_refl.
  - destruct (Ascii.eqb c sep); [by rewrite IH|].
    rewrite IH. pose proof (split_nonempty sep a).
    by destruct (split sep a).
Qed.

Lemma names_only_seq (g1 g2 : generator (option string)) :
  names_only g1 → names_only g2 → names_only (gen_seq g1 g2).
Proof.
  intros [[H1|H1] Hy1] [H2 Hy2]; unfold names_only, gen_seq; rewrite H1; simpl.
  - split; [done|]. by apply Forall_app.
  - rewrite H1. auto.
Qed.

Lemma names_only_for {B : Type} (l : list B) (body : B → generator (option string)) :
  (∀ x, x ∈ l → names_only (body x)) → names_only (gen_for l body).
Proof.
  induction l as [|x l IH]; intros Hb; simpl.
  - split; [by left | constructor].
  - apply names_only_seq; [apply Hb; left | apply IH; intros y Hy; apply Hb; by right].
Qed.

Lemma names_only_for_gen {B : Type} (g : generator B)
    (body : B → generator (option string)) :
  finish g = StopIteration ∨ finish g = Raises AttributeError →
  (∀ x, x ∈ yielded g → names_only (body x)) →
  names_only (gen_for_gen g body).
Proof.
  intros Hg Hb. unfold gen_for_gen. apply names_only_seq; [by apply names_only_for|].
  split; [done | constructor].
Qed.

Lemma token_options_total (tok : token) : finish (token_options tok) = StopIteration.
Proof.
  destruct tok as [grp|chr]; [|done]. simpl.
  by destruct (group_iterator_list_bounded (String.length grp) grp) as [cs ->].
Qed.

Lemma names_only_alternatives (n : nat) (regdescr : string) :
  String.length regdescr ≤ n →
  names_only (gen_for (split "|" regdescr) expand_alternative).
Proof.
  revert regdescr. induction n as [|n IH]; intros regdescr Hlen;
    apply names_only_for; intros u Hu%split_length; unfold expand_alternative;
    destruct (match_token u) as [[tok rest]|] eqn:E;
    try (split; [by right | constructor]);
    apply match_token_length in E; [lia|].
  apply names_only_for_gen; [left; apply token_options_total|].
  intros c _. destruct rest as [|r0 rest].
  { split; [by left|]. repeat constructor. by eexists. }
  assert (Hrest : names_only (register_options (String r0 rest))).
  { rewrite register_options_eq. rewrite gen_seq_nil_l. apply IH. lia. }
  apply names_only_for_gen; [apply Hrest|].
  intros r Hr. destruct Hrest as [_ Hsome].
  eapply Forall_forall in Hsome as [r' ->]; [|exact Hr].
  split; [by left|]. repeat constructor. by eexists.
Qed.

Lemma register_options_ending (regdescr : string) :
  finish (register_options regdescr) = StopIteration ∨
  finish (register_options regdescr) = Raises AttributeError.
Proof.
  rewrite register_options_eq.
  destruct (names_only_alternatives (String.length regdescr) regdescr) as [Hf _];
    [done|].
  destruct regdescr; [|by rewrite gen_seq_nil_l].
  unfold gen_seq. simpl. done.
Qed.

Lemma register_options_some (regdescr : string) :
  regdescr ≠ EmptyString →
  Forall is_Some (yielded (register_options regdescr)).
Proof.
  intros Hne. rewrite register_options_eq.
  destruct regdescr; [done|]. rewrite gen_seq_nil_l.
  by apply (names_only_alternatives (String.length (String a regdescr))).
Qed.

(** *** The expander at the recursion limit *)

Lemma names_or_cut_seq (g1 g2 : generator (option string)) :
  names_or_cut g1 → names_or_cut g2 → names_or_cut (gen_seq g1 g2).
Proof.
  intros [[H1|[H1|H1]] Hy1] [H2 Hy2]; unfold names_or_cut, gen_seq; rewrite H1; simpl.
  - split; [done|]. by apply Forall_app.
  - rewrite H1. auto.
  - rewrite H1. auto.
Qed.

Lemma names_or_cut_for {B : Type} (l : list B) (body : B → generator (option string)) :
  (∀ x, x ∈ l → names_or_cut (body x)) → names_or_cut (gen_for l body).
Proof.
  induction l as [|x l IH]; intros Hb; simpl.
  - split; [by left | constructor].
  - apply names_or_cut_seq; [apply Hb; left | apply IH; intros y Hy; apply Hb; by right].
Qed.

Lemma names_or_cut_for_gen {B : Type} (g : generator B)
    (body : B → generator (option string)) :
  finish g = StopIteration ∨ finish g = Raises AttributeError ∨ finish g = Unfinished →
  (∀ x, x ∈ yielded g → names_or_cut (body x)) →
  names_or_cut (gen_for_gen g body).
Proof.
  intros Hg Hb. unfold gen_for_gen.
  apply names_or_cut_seq; [by apply names_or_cut_for|].
  split; [done | constructor].
Qed.

(** With any number of frames, all that a descriptor which is not empty
    yields is names, and the enumeration ends normally, by
    [AttributeError], or for want of frames. *)
Lemma register_options_fuel_names (fuel : nat) (regdescr : string) :
  regdescr ≠ EmptyString → names_or_cut (register_options_fuel fuel regdescr).
Proof.
  revert regdescr. induction fuel as [|fuel IH]; intros [|a regdescr] Hne; try done.
  { split; [by right; right | constructor]. }
  cbn [register_options_fuel]. rewrite gen_seq_nil_l.
  apply names_or_cut_for. intros u _.
  destruct (match_token u) as [[tok rest]|]; [|split; [by right; left | constructor]].
  change (match tok with
          | Grp grp => group_iterator grp
          | Chr chr => gen_of_list [char chr]
          end) with (token_options tok).
  apply names_or_cut_for_gen; [left; apply token_options_total|].
  intros c _. destruct rest as [|r0 rest].
  { split; [by left|]. repeat constructor. by eexists. }
  destruct (IH (String r0 rest)) as [Hfin Hsome]; [done|].
  apply names_or_cut_for_gen; [done|].
  intros r Hr. eapply Forall_forall in Hsome as [r' ->]; [|exact Hr].
  split; [by left|]. repeat constructor. by eexists.
Qed.

Lemma register_options_fuel_ending (fuel : nat) (regdescr : string) :
  finish (register_options_fuel fuel regdescr) = StopIteration ∨
  finish (register_options_fuel fuel regdescr) = Raises AttributeError ∨
  finish (register_options_fuel fuel regdescr) = Unfinished.
Proof.
  destruct regdescr as [|a regdescr].
  - destruct fuel; [by right; right | by right; left].
  - by apply register_options_fuel_names.
Qed.

(** The two exceptions of the enumeration under the recursion limit. *)
Lemma register_options_within_ending (depth : nat) (regdescr : string) (e : exn) :
  finish (register_options_within depth regdescr) = Raises e →
  e = AttributeError ∨ (e = RecursionError ∧ depth ≤ String.length regdescr).
Proof.
  unfold register_options_within, at_recursion_limit. cbn [finish].
  destruct (register_options_fuel_ending depth regdescr) as [Hf|[Hf|Hf]];
    rewrite Hf; intros [= <-]; [by left|right].
  split; [done|]. destruct (decide (depth ≤ String.length regdescr)); [done|].
  exfalso. by apply (settled_register_options_fuel depth regdescr); [lia|].
Qed.

(** With more frames than the descriptor has characters, the recursion
    limit makes no difference. *)
Lemma register_options_within_enough (depth : nat) (regdescr : string) :
  String.length regdescr < depth →
  register_options_within depth regdescr = register_options regdescr.
Proof.
  intros Hlen. unfold register_options_within.
  rewrite register_options_fuel_enough by done.
  pose proof (register_options_settled regdescr) as Hs.
  unfold at_recursion_limit, settled in *.
  destruct (register_options regdescr) as [ys [|e|]]; done.
Qed.

(** X: under the recursion limit of the interpreter the enumeration of
    a descriptor can end by two exceptions only: [AttributeError], and
    [RecursionError] when the descriptor has at least as many characters
    as there are frames for the nested activations.  The concatenation
    [c + r] never meets the [None] marker, and the alphabet lookups of
    a range never fail. *)
Theorem register_options_raises_only (depth : nat) (regdescr : string) (e : exn) :
  finish (register_options_within depth regdescr) = Raises e →
  e = AttributeError ∨ (e = RecursionError ∧ depth ≤ String.length regdescr).
Proof. apply register_options_within_ending. Qed.

Lemma register_options_raises_only_witness :
  finish (register_options_within 3 "PMC0") = Raises RecursionError ∧
  (RecursionError = AttributeError ∨
   (RecursionError = RecursionError ∧ 3 ≤ String.length "PMC0")).
Proof.
  split; [reflexivity|].
  apply (register_options_raises_only 3 "PMC0"). reflexivity.
Defined.

(** X: the [None] marker is kept for the empty descriptor: whatever a
    descriptor that is not empty yields is a register name. *)
Theorem register_options_names (regdescr : string) :
  regdescr ≠ EmptyString →
  Forall is_Some (yielded (register_options regdescr)).
Proof. apply register_options_some. Qed.

Lemma register_options_names_witness :
  Forall is_Some (yielded (register_options "PMC[0-1]|")).
Proof. apply register_options_names. discriminate. Defined.

Lemma plain_no_pipe (s : string) :
  str_forall plain_char s = true → str_index "|" s = None.
Proof.
  induction s as [|c s IH]; [done|]. cbn [str_forall str_index].
  intros [Hc Hs]%andb_true_iff. unfold plain_char in Hc.
  apply andb_true_iff in Hc as [[_ Hpipe]%andb_true_iff _].
  apply negb_true_iff in Hpipe. rewrite (Ascii.eqb_sym "|" c), Hpipe.
  by rewrite IH.
Qed.

(** A name of [n] characters takes [n] nested activations. *)
Lemma register_options_fuel_name (depth : nat) (regdescr : string) :
  regdescr ≠ EmptyString →
  str_forall plain_char regdescr = true →
  register_options_fuel depth regdescr
  = if decide (String.length regdescr ≤ depth) then gen_of_list [Some regdescr]
    else Gen [] Unfinished.
Proof.
  revert depth. induction regdescr as [|c rest IH]; [done|]. intros depth _ Hplain.
  destruct depth as [|depth].
  { rewrite decide_False by (cbn [String.length]; lia). done. }
  assert (Hsplit : split "|" (String c rest) = [String c rest]).
  { by apply split_no_sep, plain_no_pipe. }
  cbn [str_forall] in Hplain. apply andb_true_iff in Hplain as [Hc Hrest].
  unfold plain_char in Hc.
  apply andb_true_iff in Hc as [[Hbr Hpipe]%andb_true_iff Hdot].
  apply negb_true_iff in Hbr, Hpipe.
  cbn [register_options_fuel]. rewrite Hsplit, gen_seq_nil_l. cbn [gen_for].
  rewrite gen_seq_nil_r. cbn [match_token]. rewrite Hbr, Hdot.
  destruct rest as [|d rest].
  { rewrite decide_True by (cbn [String.length]; lia). done. }
  rewrite IH by done. cbn [String.length].
  destruct (decide (S (String.length rest) ≤ depth)).
  - rewrite decide_True by lia. done.
  - rewrite decide_False by lia. done.
Qed.

(** X: a descriptor without brackets, pipes and newlines is a register
    name, and a name of [n] characters takes [n] nested activations of
    [register_options]: with room for that many it expands to itself and
    ends normally, with less room it yields nothing and ends by
    [RecursionError]. *)
Theorem register_options_plain (depth : nat) (regdescr : string) :
  regdescr ≠ EmptyString →
  str_forall plain_char regdescr = true →
  register_options_within depth regdescr
  = if decide (String.length regdescr ≤ depth) then gen_of_list [Some regdescr]
    else gen_raise RecursionError.
Proof.
  intros Hne Hplain. unfold register_options_within.
  rewrite register_options_fuel_name by done. by destruct (decide _).
Qed.

Lemma register_options_plain_witness :
  register_options_within 7 "CBOX2C1" = gen_of_list [Some "CBOX2C1"] ∧
  register_options_within 6 "CBOX2C1" = gen_raise RecursionError.
Proof.
  split.
  - by rewrite (register_options_plain 7 "CBOX2C1").
  - by rewrite (register_options_plain 6 "CBOX2C1").
Defined.

(** X: a pipe between two descriptors that are not empty gives the
    names of the first followed by the names of the second; when the
    first one raises, the second one is not reached. *)
Theorem register_options_union (a b : string) :
  a ≠ EmptyString → b ≠ EmptyString →
  register_options (a +:+ String "|" b)
  = gen_seq (register_options a) (register_options b).
Proof.
  intros Ha Hb. rewrite !register_options_eq, split_app, gen_for_app.
  destruct a as [|a0 a]; [done|]. destruct b as [|b0 b]; [done|].
  rewrite !gen_seq_nil_l. exact (gen_seq_nil_l _).
Qed.

Lemma register_options_union_witness :
  register_options "PMC[0-1]|PMC[23]"
  = gen_seq (register_options "PMC[0-1]") (register_options "PMC[23]").
Proof. apply (register_options_union "PMC[0-1]" "PMC[23]"); discriminate. Defined.

(** X: within one alternative the expansion is a product: each value
    of the first token, in order, is put in front of each name the rest
    of the alternative expands to, the first token varying slowest. *)
Theorem register_options_product (u rest : string) (tok : token)
    (rs : list string) :
  str_index "|" u = None →
  match_token u = Some (tok, rest) →
  rest ≠ EmptyString →
  register_options rest = gen_of_list (Some <$> rs) →
  register_options u
  = gen_of_list (Some <$> (c ← yielded (token_options tok);
                           (λ r, c +:+ r) <$> rs)).
Proof.
  intros Hpipe Htok Hrest Hrs.
  assert (Hu : u ≠ EmptyString) by (by destruct u).
  rewrite register_options_eq, (split_no_sep _ _ Hpipe).
  destruct u; [done|]. rewrite gen_seq_nil_l. cbn [gen_for].
  rewrite gen_seq_nil_r. unfold expand_alternative. rewrite Htok.
  destruct rest as [|r0 rest]; [done|]. rewrite Hrs.
  assert (Hlist : token_options tok = gen_of_list (yielded (token_options tok))).
  { pose proof (token_options_total tok) as Hfin.
    destruct (token_options tok) as [ys fin]. simpl in *. by subst. }
  rewrite Hlist at 1.
  rewrite (gen_for_gen_of_list _ _ (λ c, Some <$> ((λ r, c +:+ r) <$> rs))).
  - f_equal. generalize (yielded (token_options tok)). intros cs.
    induction cs as [|c cs IH]; [done|]. by rewrite !bind_cons, fmap_app, IH.
  - intros c _.
    rewrite (gen_for_gen_of_list _ _ (λ r, match r with
                                            | Some r' => [Some (c +:+ r')]
                                            | None => []
                                            end)).
    + f_equal. clear. induction rs as [|r rs IH]; [done|].
      by rewrite !fmap_cons, bind_cons, IH.
    + intros r Hr. apply list_elem_of_fmap in Hr as [r' [-> _]]. done.
Qed.

Lemma register_options_product_witness :
  register_options "C[01]X[ab]"
  = gen_of_list [Some "C0Xa"; Some "C0Xb"; Some "C1Xa"; Some "C1Xb"].
Proof.
  apply (register_options_product "C[01]X[ab]" "[01]X[ab]" (Chr "C")
           ["0Xa"; "0Xb"; "1Xa"; "1Xb"]);
    [reflexivity | reflexivity | discriminate | vm_compute; reflexivity].
Defined.

(** ** The scheduler on repeated events *)

Section firsts_facts.
Context {A : Type} `{EqDecision A}.
Implicit Types (x : A) (l pre : list A).

Lemma firsts_ext pre pre' l :
  (∀ y, y ∈ pre ↔ y ∈ pre') → firsts pre l = firsts pre' l.
Proof.
  revert pre pre'. induction l as [|x l IH]; intros pre pre' Hpre; simpl; [done|].
  assert (Hnext : ∀ y, y ∈ pre ++ [x] ↔ y ∈ pre' ++ [x]).
  { intros y. rewrite !elem_of_app, Hpre. tauto. }
  destruct (decide (x ∈ pre)) as [Hx|Hx], (decide (x ∈ pre')) as [Hx'|Hx'];
    try (by rewrite (IH _ _ Hnext)); exfalso; apply Hpre in Hx || apply Hpre in Hx';
    done.
Qed.

Lemma firsts_app pre l1 l2 :
  firsts pre (l1 ++ l2) = firsts pre l1 ++ firsts (pre ++ l1) l2.
Proof.
  revert pre. induction l1 as [|x l1 IH]; intros pre; simpl.
  - by rewrite app_nil_r.
  - rewrite IH, <- app_assoc. simpl. by destruct (decide (x ∈ pre)).
Qed.

(** A copy of an event that comes after another copy is dropped. *)
Lemma eliminate_multiples_repeated l1 l2 x :
  x ∈ l1 → eliminate_multiples (l1 ++ x :: l2) = eliminate_multiples (l1 ++ l2).
Proof.
  intros Hx. rewrite !eliminate_multiples_firsts, !firsts_app. f_equal. simpl.
  rewrite decide_True by done. apply firsts_ext.
  intros y. rewrite elem_of_app, list_elem_of_singleton.
  split; [intros [?| ->]; done | by left].
Qed.

Lemma eliminate_multiples_idemp l :
  eliminate_multiples (eliminate_multiples l) = eliminate_multiples l.
Proof.
  pose proof (NoDup_eliminate_multiples l) as Hnd.
  rewrite (eliminate_multiples_firsts (eliminate_multiples l)).
  generalize dependent (eliminate_multiples l). intros k Hnd.
  assert (Hgen : ∀ pre, (∀ y, y ∈ pre → y ∉ k) → firsts pre k = k).
  { induction Hnd as [|x k Hx Hk IH]; intros pre Hpre; simpl; [done|].
    rewrite decide_False by (intros Hin; apply (Hpre _ Hin); left).
    f_equal. apply IH. intros y [Hy| ->%list_elem_of_singleton]%elem_of_app; [|done].
    intros Hyk. apply (Hpre _ Hy). by right. }
  apply Hgen. by intros y ?%elem_of_nil.
Qed.
End firsts_facts.

(** X: an event that is given again later in the list makes no
    difference to what [build_minimal_runs] does. *)
Theorem build_minimal_runs_repeated (fuel : nat) (l1 l2 : list event_tpl)
    (e : event_tpl) :
  e ∈ l1 →
  build_minimal_runs fuel (l1 ++ e :: l2) = build_minimal_runs fuel (l1 ++ l2).
Proof.
  intros He. unfold build_minimal_runs. by rewrite eliminate_multiples_repeated.
Qed.

Lemma build_minimal_runs_repeated_witness :
  build_minimal_runs 3 five_events
  = build_minimal_runs 3
      [("L1D_REPLACEMENT", "PMC[0-1]", None);
       ("L2_LINES_IN", "PMC[0-1]", None);
       ("L2_TRANS", "PMC[0-1]", None);
       ("MEM_UOPS_RETIRED_LOADS", "PMC[0-1]", Some {[ "THRESHOLD" := Some 2342%Z ]});
       ("MEM_UOPS_RETIRED_LOADS", "PMC[0-1]", None)].
Proof.
  apply (build_minimal_runs_repeated 3
           [("L1D_REPLACEMENT", "PMC[0-1]", None); ("L2_LINES_IN", "PMC[0-1]", None)]).
  left.
Defined.

(** ** The scheduler: how many runs it takes *)

Lemma filter_register_length (r : option string) (run : list run_entry) :
  NoDup (register_of <$> run) →
  length (filter (λ entry, register_of entry = r) run) ≤ 1.
Proof.
  induction run as [|entry run IH]; [simpl; lia|].
  rewrite fmap_cons, NoDup_cons. intros [Hnew Hnd]. rewrite filter_cons.
  destruct (decide (register_of entry = r)) as [Heq|Hne]; [|by apply IH].
  assert (Hnone : filter (λ entry, register_of entry = r) run = []).
  { clear IH Hnd. induction run as [|x run IHr]; [done|].
    rewrite fmap_cons, not_elem_of_cons in Hnew. destruct Hnew as [Hx Hnew].
    rewrite filter_cons, decide_False by congruence. by apply IHr. }
  rewrite Hnone. simpl. lia.
Qed.

Lemma filter_register_runs (r : option string) (runs : list (list run_entry)) :
  Forall (λ run, NoDup (register_of <$> run)) runs →
  length (filter (λ entry, register_of entry = r) (concat runs)) ≤ length runs.
Proof.
  induction 1 as [|run runs Hrun Hruns IH]; [simpl; lia|].
  simpl. rewrite filter_app, length_app.
  pose proof (filter_register_length r run Hrun). lia.
Qed.

Lemma filter_pinned_assign (r : option string)
    (assign : list (event_tpl * option string)) :
  Forall candidate assign →
  length (filter (pinned r) assign.*1)
  ≤ length (filter (λ entry, register_of entry = r) (entry_of <$> assign)).
Proof.
  induction 1 as [|a assign Ha Hassign IH]; [simpl; lia|].
  rewrite !fmap_cons, !filter_cons.
  destruct (decide (pinned r a.1)) as [Hpin|Hpin].
  - unfold candidate in Ha. rewrite Hpin in Ha.
    apply list_elem_of_singleton in Ha.
    rewrite decide_True by done. simpl. lia.
  - destruct (decide _); simpl; lia.
Qed.

(** X: events that can only sit on one and the same register need a
    run each: there are at least as many runs as there are such events
    among the de-duplicated ones. *)
Theorem build_minimal_runs_pinned (fuel : nat) (events : list event_tpl)
    (runs : list (list run_entry)) (r : option string) :
  build_minimal_runs fuel events = Returned runs →
  length (filter (pinned r) (eliminate_multiples events)) ≤ length runs.
Proof.
  intros Hret.
  destruct (build_minimal_runs_inv _ _ _ Hret)
    as (st & bound & Hloop & -> & ([_ _ Hruns Hassign] & Hnd & Hsub) & Hlen).
  destruct Hassign as (assign & Hfst & Hcand & Hperm).
  assert (Hp : st.2 ≡ₚ eliminate_multiples events).
  { apply submseteq_length_Permutation; [by apply NoDup_submseteq | lia]. }
  rewrite <- Hp, <- Hfst.
  etransitivity; [by apply filter_pinned_assign|].
  rewrite <- Hperm. apply filter_register_runs.
  apply Forall_fmap. eapply Forall_impl; [exact Hruns|].
  intros s Hs. by apply run_ok_registers.
Qed.

Lemma build_minimal_runs_pinned_witness :
  length (filter (pinned (Some "PMC0"))
            (eliminate_multiples [("L1D_REPLACEMENT", "PMC0", None);
                                  ("L2_TRANS", "PMC0", None)]))
  ≤ length [[("L1D_REPLACEMENT", Some "PMC0", None) : run_entry];
            [("L2_TRANS", Some "PMC0", None)]].
Proof.
  apply (build_minimal_runs_pinned 2). vm_compute. reflexivity.
Defined.

(** ** The scheduler: what it can raise *)

Lemma try_registers_raised (cur_run : nat) (e : event_tpl) (x : exn)
    (regs : list (option string)) (fin : ending) (st : sched_state) :
  try_registers cur_run e regs fin st = Raised x → fin = Raises x.
Proof.
  revert st. induction regs as [|r regs IH]; intros st; simpl.
  - destruct fin; simpl; congruence.
  - destruct e as [[event registers] parameters], st as [runs sched].
    destruct (decide _); [apply IH | done].
Qed.

Section scheduler_on_facts.
Variable options : string → generator (option string).

(** The loops of the scheduler raise nothing of their own. *)
Lemma sweep_on_raised (cur_run : nat) (l : list event_tpl) (st : sched_state)
    (x : exn) :
  sweep_on options cur_run l st = Raised x →
  ∃ e, e ∈ l ∧ finish (options e.1.2) = Raises x.
Proof.
  revert st. induction l as [|e l IH]; intros st; simpl; [done|].
  assert (Hrest : ∀ st1, sweep_on options cur_run l st1 = Raised x →
            ∃ e0, e0 ∈ e :: l ∧ finish (options e0.1.2) = Raises x).
  { intros st1 (e0 & He0 & Hx)%IH. exists e0. split; [by right | done]. }
  destruct (decide _); [apply Hrest|].
  destruct (try_registers _ _ _ _ _) as [st1|x'|] eqn:Etry; simpl;
    [apply Hrest| |done].
  intros [= <-]. apply try_registers_raised in Etry. exists e. split; [left | done].
Qed.

Lemma schedule_loop_on_raised (fuel cur_run : nat) (l : list event_tpl)
    (st : sched_state) (x : exn) :
  schedule_loop_on options fuel l cur_run st = Raised x →
  ∃ e, e ∈ l ∧ finish (options e.1.2) = Raises x.
Proof.
  revert cur_run st. induction fuel as [|fuel IH]; intros cur_run st; simpl.
  - destruct (decide _); done.
  - destruct (decide _); [done|].
    destruct (sweep_on options cur_run l st) as [st1|x'|] eqn:Esw; simpl;
      [apply IH| |done].
    intros [= <-]. by apply sweep_on_raised in Esw.
Qed.

Lemma build_minimal_runs_on_raised (fuel : nat) (events : list event_tpl) (x : exn) :
  build_minimal_runs_on options fuel events = Raised x →
  ∃ e, e ∈ events ∧ finish (options e.1.2) = Raises x.
Proof.
  unfold build_minimal_runs_on.
  destruct (schedule_loop_on _ _ _ _ _) as [st|x'|] eqn:Eloop; simpl; try done.
  intros [= <-]. apply schedule_loop_on_raised in Eloop as (e & He & Hx).
  exists e. split; [by apply (proj1 (elem_of_eliminate_multiples e events)) | done].
Qed.

(** Two enumerations that agree on the descriptors of the events make
    no difference to the scheduler. *)
Lemma sweep_on_ext (options' : string → generator (option string))
    (cur_run : nat) (l : list event_tpl) (st : sched_state) :
  (∀ e, e ∈ l → options e.1.2 = options' e.1.2) →
  sweep_on options cur_run l st = sweep_on options' cur_run l st.
Proof.
  revert st. induction l as [|e l IH]; intros st Hl; simpl; [done|].
  assert (Hl' : ∀ e0, e0 ∈ l → options e0.1.2 = options' e0.1.2)
    by (intros e0 He0; apply Hl; by right).
  destruct (decide _); [by apply IH|].
  rewrite (Hl e) by left.
  destruct (try_registers _ _ _ _ _) as [st1|x'|]; simpl; [by apply IH|done|done].
Qed.

Lemma schedule_loop_on_ext (options' : string → generator (option string))
    (fuel cur_run : nat) (l : list event_tpl) (st : sched_state) :
  (∀ e, e ∈ l → options e.1.2 = options' e.1.2) →
  schedule_loop_on options fuel l cur_run st
  = schedule_loop_on options' fuel l cur_run st.
Proof.
  intros Hl. revert cur_run st. induction fuel as [|fuel IH]; intros cur_run st;
    simpl; [done|].
  destruct (decide _); [done|]. rewrite (sweep_on_ext options') by done.
  destruct (sweep_on options' cur_run l st) as [st1|x'|]; simpl; [apply IH|done|done].
Qed.
End scheduler_on_facts.

(** The scheduler over [register_options] is [build_minimal_runs]. *)
Lemma build_minimal_runs_on_register_options (fuel : nat) (events : list event_tpl) :
  build_minimal_runs_on register_options fuel events = build_minimal_runs fuel events.
Proof. reflexivity. Qed.

(** X: under the recursion limit of the interpreter
    [build_minimal_runs] raises nothing of its own: what it raises is
    what the enumeration of the descriptor of one of its events ended
    by, and that is [AttributeError] or [RecursionError]. *)
Theorem build_minimal_runs_raises (depth fuel : nat) (events : list event_tpl)
    (x : exn) :
  build_minimal_runs_within depth fuel events = Raised x →
  (x = AttributeError ∨ x = RecursionError) ∧
  ∃ e, e ∈ events ∧ finish (register_options_within depth e.1.2) = Raises x.
Proof.
  intros (e & He & Hx)%build_minimal_runs_on_raised. split; [|eauto].
  destruct (register_options_within_ending _ _ _ Hx) as [->|[-> _]]; auto.
Qed.

Lemma build_minimal_runs_raises_witness :
  build_minimal_runs_within 2 1 [("UOPS", "PMC0", None)] = Raised RecursionError ∧
  (RecursionError = AttributeError ∨ RecursionError = RecursionError).
Proof.
  assert (Hr : build_minimal_runs_within 2 1 [("UOPS", "PMC0", None)]
               = Raised RecursionError) by (vm_compute; reflexivity).
  split; [exact Hr|].
  exact (proj1 (build_minimal_runs_raises 2 1 [("UOPS", "PMC0", None)] _ Hr)).
Defined.

(** X: when every descriptor has fewer characters than there are
    frames for the nested activations of [register_options], the
    recursion limit makes no difference to [build_minimal_runs]. *)
Theorem build_minimal_runs_within_enough (depth fuel : nat) (events : list event_tpl) :
  (∀ e, e ∈ events → String.length e.1.2 < depth) →
  build_minimal_runs_within depth fuel events = build_minimal_runs fuel events.
Proof.
  intros Hlen. rewrite <- build_minimal_runs_on_register_options.
  unfold build_minimal_runs_within, build_minimal_runs_on.
  rewrite (schedule_loop_on_ext _ register_options); [done|].
  intros e He. apply register_options_within_enough, Hlen.
  by apply (proj1 (elem_of_eliminate_multiples e events)).
Qed.

Lemma build_minimal_runs_within_enough_witness :
  build_minimal_runs_within 9 3 five_events = build_minimal_runs 3 five_events.
Proof.
  apply (build_minimal_runs_within_enough 9 3 five_events).
  intros e He. unfold five_events in He.
  repeat (apply elem_of_cons in He as [->|He]; [vm_compute; lia|]).
  by apply elem_of_nil in He.
Defined.

(** ** The scheduler on empty descriptors *)

Lemma empty_descriptor_options :
  register_options EmptyString = Gen [None] (Raises AttributeError).
Proof. done. Qed.

Lemma try_registers_none_fresh (e : event_tpl) (fin : ending) :
  try_registers 0 e [None] fin ([], [])
  = Returned ([(0, [(None, (e.1.1, None, e.2))])], [e]).
Proof. by destruct e as [[event registers] parameters]. Qed.

Lemma try_registers_none_taken (e : event_tpl) (entry : run_entry)
    (scheduled_events : list event_tpl) :
  try_registers 0 e [None] (Raises AttributeError)
    ([(0, [(None, entry)])], scheduled_events)
  = Raised AttributeError.
Proof. by destruct e as [[event registers] parameters]. Qed.

(** X: an event with the empty descriptor takes the [None] register
    of the current run; when the next event to schedule has the empty
    descriptor too, the enumeration of its candidates is resumed past
    the [None] marker and [build_minimal_runs] raises [AttributeError]. *)
Theorem build_minimal_runs_two_empty (fuel : nat) (events rest : list event_tpl)
    (event1 event2 : string) (parameters1 parameters2 : option params) :
  eliminate_multiples events
  = (event1, EmptyString, parameters1) :: (event2, EmptyString, parameters2) :: rest →
  build_minimal_runs (S fuel) events = Raised AttributeError.
Proof.
  intros Hev. unfold build_minimal_runs. rewrite Hev.
  pose proof (NoDup_eliminate_multiples events) as Hnd. rewrite Hev in Hnd.
  apply NoDup_cons in Hnd as [Hne _].
  cbn [schedule_loop]. rewrite decide_False by (simpl; lia).
  cbn [sweep snd]. rewrite decide_False by apply not_elem_of_nil.
  cbn [fst snd]. rewrite empty_descriptor_options. cbn [yielded finish].
  rewrite try_registers_none_fresh. cbn [mbind outcome_bind snd].
  rewrite decide_False.
  2:{ intros Hin%list_elem_of_singleton. apply Hne. rewrite Hin. left. }
  by rewrite try_registers_none_taken.
Qed.

Lemma build_minimal_runs_two_empty_witness :
  build_minimal_runs 1 [("UOPS", "", None); ("UOPS", "", None); ("L2_TRANS", "", None)]
  = Raised AttributeError.
Proof.
  apply (build_minimal_runs_two_empty 0 _ [] "UOPS" "L2_TRANS" None None).
  vm_compute. reflexivity.
Defined.

(** X: an event with the empty descriptor that is alone in its run
    ends up on the [None] register, and the run cannot be rendered as
    an event group: [eventstr] raises [TypeError] on its entry. *)
Theorem build_minimal_runs_one_empty (fuel : nat) (event : string)
    (parameters : option params) :
  build_minimal_runs (S fuel) [(event, EmptyString, parameters)]
  = Returned [[(event, None, parameters)]] ∧
  event_group [(event, None, parameters)] = Raise TypeError.
Proof.
  split.
  - unfold build_minimal_runs.
    replace (eliminate_multiples [(event, EmptyString, parameters)])
      with [(event, EmptyString, parameters)]
      by (by rewrite eliminate_multiples_cons).
    cbn [schedule_loop]. rewrite decide_False by (simpl; lia).
    cbn [sweep snd]. rewrite decide_False by apply not_elem_of_nil.
    cbn [fst snd]. rewrite empty_descriptor_options. cbn [yielded finish].
    rewrite try_registers_none_fresh. cbn [mbind outcome_bind snd].
    destruct fuel; cbn [schedule_loop]; by rewrite decide_True.
  - unfold event_group. cbn [result_map]. by rewrite eventstr_no_register.
Qed.

(** ** Rendering the runs of the scheduler *)

Lemma result_map_ok {A B : Type} (f : A → result B) (l : list A) :
  Forall (λ x, ∃ y, f x = Ok y) l → ∃ ys, result_map f l = Ok ys.
Proof.
  induction 1 as [|x l [y Hy] Hl [ys IH]]; simpl; [by eexists|].
  rewrite Hy. simpl. rewrite IH. by eexists.
Qed.

(** X: when no event has the empty descriptor, every run that
    [build_minimal_runs] returns can be rendered as an event group for
    the profiling tool. *)
Theorem build_minimal_runs_renderable (fuel : nat) (events : list event_tpl)
    (runs : list (list run_entry)) :
  (∀ e, e ∈ events → e.1.2 ≠ EmptyString) →
  build_minimal_runs fuel events = Returned runs →
  Forall (λ run, ∃ ctrs, event_group run = Ok ctrs) runs.
Proof.
  intros Hne Hret.
  destruct (build_minimal_runs_inv _ _ _ Hret)
    as (st & bound & Hloop & -> & ([_ _ Hruns Hassign] & Hnd & Hsub) & Hlen).
  destruct Hassign as (assign & Hfst & Hcand & Hperm).
  assert (Hall : Forall (λ entry, ∃ y, eventstr entry = Ok y) (all_entries st.1)).
  { rewrite Hperm. apply Forall_fmap. apply Forall_forall. intros [e r] Ha.
    assert (He : e ∈ events).
    { apply elem_of_eliminate_multiples, Hsub. rewrite <- Hfst.
      apply list_elem_of_fmap. by exists (e, r). }
    eapply Forall_forall in Hcand; [|exact Ha]. unfold candidate in Hcand. simpl in *.
    pose proof (register_options_some _ (Hne e He)) as Hsome.
    rewrite Forall_forall in Hsome. destruct (Hsome r Hcand) as [r' ->].
    destruct e as [[event registers] parameters].
    eexists. apply (eventstr_render event r' parameters). }
  unfold all_entries in Hall. apply Forall_concat in Hall.
  eapply Forall_impl; [exact Hall|]. intros run Hrun.
  destruct (result_map_ok eventstr run Hrun) as [strs Hstrs].
  unfold event_group. rewrite Hstrs. by eexists.
Qed.

Lemma build_minimal_runs_renderable_witness :
  Forall (λ run, ∃ ctrs, event_group run = Ok ctrs) five_runs.
Proof.
  apply (build_minimal_runs_renderable 3 five_events).
  - intros e He. unfold five_events in He.
    repeat (apply elem_of_cons in He as [->|He]; [discriminate|]).
    by apply elem_of_nil in He.
  - vm_compute. reflexivity.
Defined.

(** ** Splitting and joining *)

(** Splitting a string at a separator and joining the fields with
    the separator gives the string back, and no field contains the
    separator ([line.split(',')], [regdescr.split('|')]). *)
Theorem join_split (sep : ascii) (s : string) :
  join (char sep) (split sep s) = s ∧
  Forall (λ field, str_index sep field = None) (split sep s).
Proof.
  induction s as [|c s [IHj IHf]]; [by repeat constructor|].
  cbn [split]. pose proof (split_nonempty sep s) as Hne.
  destruct (Ascii.eqb_spec c sep) as [->|Hc].
  - split; [|constructor; [done|exact IHf]].
    destruct (split sep s) as [|h t]; [done|].
    change (join (char sep) (EmptyString :: h :: t))
      with (String sep (join (char sep) (h :: t))).
    by rewrite IHj.
  - destruct (split sep s) as [|h t]; [done|].
    apply Forall_cons in IHf as [Hh Ht]. split.
    + rewrite <- IHj. by destruct t.
    + constructor; [|done]. cbn [str_index].
      destruct (Ascii.eqb_spec sep c) as [->|_]; [done|]. by rewrite Hh.
Qed.

(** ** The parser of [perfctr], line by line *)

Section perfctr_more.
Context `{Builtins}.

(** X: a line changes the binding of one name at most, the one in
    its first field. *)
Theorem perfctr_line_frame (line : string) (results results' : gmap string value)
    (name : string) :
  perfctr_line line results = Ok results' →
  head (split "," line) ≠ Some name →
  results' !! name = results !! name.
Proof.
  unfold perfctr_line.
  destruct (split "," line) as [|f0 [|f1 rest]]; try (by intros [= <-]).
  intros Hline Hname. simpl in Hname.
  assert (Hne : f0 ≠ name) by congruence.
  set (results1 := match py_float f1 with
                   | Some x => <[f0:=VFloat x]> results
                   | None => results
                   end) in *.
  assert (H1 : results1 !! name = results !! name).
  { subst results1. destruct (py_float f1); [by rewrite lookup_insert_ne|done]. }
  destruct rest as [|f2 rest]; [by injection Hline as <-|].
  unfold record_counter in Hline.
  destruct (py_int f2); [|by injection Hline as <-].
  destruct (_ && _); [|by injection Hline as <-].
  destruct (results1 !! f0) as [[x|d]|]; try done;
    injection Hline as <-; by rewrite lookup_insert_ne.
Qed.

(** X: a raw counter line (an event name, a register name that is
    no float, an integer) whose event is not bound to a float records
    the value under the event and the register and keeps the counters
    of the event's other registers. *)
Theorem perfctr_line_counter (line f0 f1 f2 : string) (rest : list string) (n : Z)
    (results : gmap string value) :
  split "," line = f0 :: f1 :: f2 :: rest →
  py_float f1 = None →
  py_int f2 = Some n →
  fullmatch_plus is_event_char f0 = true →
  fullmatch_plus is_register_char f1 = true →
  (∀ x, results !! f0 ≠ Some (VFloat x)) →
  perfctr_line line results
  = Ok (<[f0 := VCounters (<[f1 := n]> (counters_of results f0))]> results).
Proof.
  intros Hsplit Hf Hi H0 H1 Hnf. unfold perfctr_line, record_counter, counters_of.
  rewrite Hsplit, Hf, Hi, H0, H1. simpl.
  destruct (results !! f0) as [[x|d]|] eqn:Hr; [by destruct (Hnf x)|done|done].
Qed.

Lemma perfctr_line_apart (line : string) (results : gmap string value) :
  (∀ f0 f1 rest, split "," line = f0 :: f1 :: rest →
     is_Some (py_float f1) → fullmatch_plus is_event_char f0 = false) →
  floats_apart results →
  ∃ results', perfctr_line line results = Ok results' ∧ floats_apart results'.
Proof.
  intros Hline Hres. unfold perfctr_line.
  destruct (split "," line) as [|f0 [|f1 rest]] eqn:Hsplit; try by eauto.
  specialize (Hline f0 f1 rest eq_refl).
  set (results1 := match py_float f1 with
                   | Some x => <[f0:=VFloat x]> results
                   | None => results
                   end).
  assert (H1 : floats_apart results1).
  { subst results1. destruct (py_float f1) as [x|] eqn:Hf; [|done].
    intros k y. rewrite lookup_insert. case_decide as Hk; [|apply Hres].
    subst k. intros _. apply Hline. by eexists. }
  destruct rest as [|f2 rest]; [by eauto|].
  unfold record_counter. destruct (py_int f2) as [n|]; [|by eauto].
  destruct (fullmatch_plus is_event_char f0) eqn:H0; [|by eauto].
  destruct (fullmatch_plus is_register_char f1); [|by eauto]. simpl.
  destruct (results1 !! f0) as [[x|d]|] eqn:Hr.
  - apply H1 in Hr. congruence.
  - eexists. split; [done|]. intros k y. rewrite lookup_insert.
    case_decide; [done | apply H1].
  - eexists. split; [done|]. intros k y. rewrite lookup_insert.
    case_decide; [done | apply H1].
Qed.

(** X: when no metric line has a name of the shape of an event name,
    the parser fails on no line: it returns a result dictionary. *)
Theorem perfctr_parse_total (output : list string) (results : gmap string value) :
  metrics_apart output →
  floats_apart results →
  ∃ results', perfctr_parse output results = Ok results' ∧ floats_apart results'.
Proof.
  revert results. induction output as [|line output IH]; intros results Hout Hres.
  - by exists results.
  - destruct (perfctr_line_apart line results) as (results1 & Hline & H1); [|done|].
    { intros f0 f1 rest. apply Hout. left. }
    cbn [perfctr_parse]. rewrite Hline. cbn [mbind result_bind].
    apply IH; [|done]. intros l f0 f1 rest Hl. apply Hout. by right.
Qed.
End perfctr_more.

Lemma perfctr_line_frame_witness :
  ∃ results' : gmap string value,
    @perfctr_line numerals "L2_TRANS,PMC0,7" {[ "Runtime" := VFloat 2 ]} = Ok results' ∧
    results' !! "Runtime" = Some (VFloat 2).
Proof.
  eexists. split; [vm_compute; reflexivity|].
  rewrite (@perfctr_line_frame numerals "L2_TRANS,PMC0,7"
             {[ "Runtime" := VFloat 2 ]} _ "Runtime");
    [reflexivity | vm_compute; reflexivity | vm_compute; discriminate].
Defined.

Lemma perfctr_line_counter_witness :
  @perfctr_line numerals "L2_TRANS,PMC1,9,x"
    {[ "L2_TRANS" := VCounters {[ "PMC0" := 7%Z ]} ]}
  = Ok {[ "L2_TRANS" := VCounters (<["PMC1" := 9%Z]> {[ "PMC0" := 7%Z ]}) ]}.
Proof.
  rewrite (@perfctr_line_counter numerals _ "L2_TRANS" "PMC1" "9" ["x"] 9);
    try (vm_compute; reflexivity).
  intros x. vm_compute. discriminate.
Defined.

Lemma perfctr_parse_total_witness :
  ∃ results',
    @perfctr_parse numerals ["Runtime (RDTSC) [s],2"; "L2_TRANS,PMC0,7"] ∅
    = Ok results' ∧ @floats_apart results'.
Proof.
  apply (@perfctr_parse_total numerals).
  - intros line f0 f1 rest Hline Hsplit Hf.
    apply elem_of_cons in Hline as [->|Hline].
    { vm_compute in Hsplit. injection Hsplit as <- <- <-. reflexivity. }
    apply list_elem_of_singleton in Hline as ->.
    vm_compute in Hsplit. injection Hsplit as <- <- <-.
    vm_compute in Hf. by destruct Hf.
  - intros k x. by rewrite lookup_empty.
Defined.

(** ** The calibration loop, when it returns *)

Section calibration_more.
Context `{Builtins}.
Variable perfctr_mem : nat → number → result (gmap string value).

Lemma probe_ok (calls : nat) (tpr : float) (z : Z) (repetitions : number)
    (mem_results : gmap string value) (runtime tpr' : float) :
  probe perfctr_mem calls tpr (PyInt z) = Ok (repetitions, mem_results, runtime, tpr') →
  repetitions = PyInt (z * 10) ∧
  perfctr_mem calls repetitions = Ok mem_results ∧
  mem_results !! "Runtime (RDTSC) [s]" = Some (VFloat runtime) ∧
  ∃ d, float_of_int (z * 10) = Ok d ∧ PrimFloat.eqb d 0 = false ∧
       tpr' = (runtime / d)%float.
Proof.
  unfold probe, next_repetitions, float_floor_div.
  destruct (PrimFloat.eqb tpr 0); [done|]. cbn [mbind result_bind].
  destruct (perfctr_mem calls (PyInt (z * 10))) as [m|] eqn:Hrun; [|done].
  cbn [mbind result_bind].
  destruct (m !! "Runtime (RDTSC) [s]") as [[rt|d]|] eqn:Hrt; try done.
  - cbn [float_of_number].
    destruct (float_of_int (z * 10)) as [d|] eqn:Hd; [|done].
    cbn [mbind result_bind]. unfold float_truediv.
    destruct (PrimFloat.eqb d 0) eqn:Hz; [done|]. cbn [mbind result_bind].
    intros [= <- <- <- <-]. eauto 10.
  - cbn [float_of_number]. by destruct (float_of_int (z * 10)).
Qed.

Lemma calibrate_returned (fuel calls : nat) (z : Z) (mem_results : gmap string value)
    (runtime tpr : float) (repetitions' : number) (mem_results' : gmap string value)
    (runtime' tpr' : float) :
  calibrate perfctr_mem fuel calls (PyInt z, mem_results, runtime, tpr)
  = Returned (repetitions', mem_results', runtime', tpr') →
  PrimFloat.ltb runtime' 0.15 = false ∧
  ∃ k, k ≤ fuel ∧ repetitions' = PyInt (z * 10 ^ Z.of_nat k) ∧
       (k = 0 → mem_results' = mem_results ∧ runtime' = runtime ∧ tpr' = tpr) ∧
       (0 < k →
        perfctr_mem (calls + k - 1) repetitions' = Ok mem_results' ∧
        mem_results' !! "Runtime (RDTSC) [s]" = Some (VFloat runtime') ∧
        ∃ d, float_of_number repetitions' = Ok d ∧ tpr' = (runtime' / d)%float).
Proof.
  revert calls z mem_results runtime tpr.
  induction fuel as [|fuel IH]; intros calls z mem_results runtime tpr;
    cbn [calibrate]; destruct (PrimFloat.ltb runtime 0.15) eqn:Hlt; try done;
    try (intros [= <- <- <- <-]; split; [done|]; exists 0;
         rewrite Z.mul_1_r; repeat split; try done; lia).
  destruct (probe perfctr_mem calls tpr (PyInt z)) as [[[[r1 m1] rt1] t1]|] eqn:Hp;
    [|done].
  cbn [lift_result mbind outcome_bind].
  apply probe_ok in Hp as (-> & Hrun & Hrt & d & Hd & _ & ->).
  intros Hret. apply IH in Hret as (Hexit & k & Hk & -> & H0 & Hpos).
  split; [done|]. exists (S k). split; [lia|]. split.
  { f_equal. rewrite Nat2Z.inj_succ, Z.pow_succ_r by lia. lia. }
  split; [lia|]. intros _. destruct k as [|k].
  - destruct H0 as (-> & -> & ->); [done|].
    rewrite Z.mul_1_r. replace (calls + 1 - 1) with calls by lia.
    repeat split; try done. exists d. by split.
  - destruct Hpos as (Hrun' & Hrt' & Hd'); [lia|].
    replace (calls + S (S k) - 1) with (S calls + S k - 1) by lia. done.
Qed.

(** X: when the calibration returns, at least one probe was run, the
    repetition count is still an integer, ten times ten to the number
    of probes, the runtime of the last probe is not below 0.15 seconds,
    and the results and the time per repetition are those of that last
    probe. *)
Theorem analyze_calibration_returned (fuel : nat) (repetitions : number)
    (mem_results : gmap string value) (runtime time_per_repetition : float) :
  analyze_calibration perfctr_mem fuel
  = Returned (repetitions, mem_results, runtime, time_per_repetition) →
  ∃ k, 1 ≤ k ≤ fuel ∧
       repetitions = PyInt (10 ^ Z.of_nat (S k)) ∧
       PrimFloat.ltb runtime 0.15 = false ∧
       perfctr_mem (k - 1) repetitions = Ok mem_results ∧
       mem_results !! "Runtime (RDTSC) [s]" = Some (VFloat runtime) ∧
       ∃ d, float_of_number repetitions = Ok d ∧
            time_per_repetition = (runtime / d)%float.
Proof.
  unfold analyze_calibration. intros Hret.
  apply calibrate_returned in Hret as (Hexit & k & Hk & -> & H0 & Hpos).
  destruct k as [|k].
  { destruct H0 as (_ & -> & _); [done|]. vm_compute in Hexit. done. }
  destruct Hpos as (Hrun & Hrt & Hd); [lia|].
  exists (S k). split; [lia|]. split.
  { f_equal. rewrite (Nat2Z.inj_succ (S k)), Z.pow_succ_r by lia. done. }
  replace (0 + S k - 1) with (S k - 1) in Hrun by lia. done.
Qed.

(** X: a first probe whose output has no runtime line makes the
    calibration fail with [KeyError]. *)
Theorem analyze_calibration_no_runtime (fuel : nat) (mem_results : gmap string value) :
  perfctr_mem 0 (PyInt 100) = Ok mem_results →
  mem_results !! "Runtime (RDTSC) [s]" = None →
  analyze_calibration perfctr_mem (S fuel) = Raised KeyError.
Proof.
  intros Hrun Hrt. unfold analyze_calibration. cbn [calibrate].
  replace (PrimFloat.ltb 0 0.15) with true by (vm_compute; reflexivity).
  unfold probe, next_repetitions.
  replace (PrimFloat.eqb (0.2 / 10.0) 0) with false by (vm_compute; reflexivity).
  replace (10 * 10)%Z with 100%Z by reflexivity.
  cbn [mbind result_bind]. rewrite Hrun. cbn [mbind result_bind].
  by rewrite Hrt.
Qed.
End calibration_more.

Lemma analyze_calibration_returned_witness :
  ∃ k, 1 ≤ k ≤ 2 ∧
       PyInt 1000 = PyInt (10 ^ Z.of_nat (S k)) ∧
       PrimFloat.ltb 0.9765625 0.15 = false.
Proof.
  destruct (@analyze_calibration_returned numerals proportional_probe 2
              (PyInt 1000) {[ "Runtime (RDTSC) [s]" := VFloat 0.9765625 ]}
              0.9765625 0x1p-10)
    as (k & Hk & Hrep & Hexit & _); [vm_compute; reflexivity|].
  exists k. auto.
Defined.

Lemma analyze_calibration_no_runtime_witness :
  @analyze_calibration numerals (λ _ _, Ok ∅) 1 = Raised KeyError.
Proof.
  apply (@analyze_calibration_no_runtime numerals (λ _ _, Ok ∅) 0 ∅); reflexivity.
Defined.

(** ** Gathering the counters of all runs *)

Section gather_facts.
Variable perfctr_group : nat → string → result (gmap string value).

Lemma gather_counters_spec (calls : nat) (minimal_runs : list (list run_entry))
    (raw0 raw : list (gmap string value)) (m0 m : gmap string value) :
  gather_counters perfctr_group calls minimal_runs raw0 m0 = Ok (raw, m) →
  ∃ rs : list (gmap string value),
    raw = raw0 ++ rs ∧
    Forall2 (λ run r, ∃ i ctrs, event_group run = Ok ctrs ∧
                                perfctr_group i ctrs = Ok r) minimal_runs rs ∧
    ∀ name, m !! name = match last (omap (λ r, r !! name) rs) with
                        | Some v => Some v
                        | None => m0 !! name
                        end.
Proof.
  revert calls raw0 m0. induction minimal_runs as [|run runs IH];
    intros calls raw0 m0; cbn [gather_counters].
  - intros [= <- <-]. exists []. rewrite app_nil_r. by repeat split.
  - destruct (event_group run) as [ctrs|] eqn:Hg; [|done]. cbn [mbind result_bind].
    destruct (perfctr_group calls ctrs) as [r|] eqn:Hr; [|done].
    cbn [mbind result_bind]. intros Hrest.
    apply IH in Hrest as (rs & -> & Hall & Hm).
    exists (r :: rs). split; [by rewrite <- app_assoc|].
    split; [constructor; eauto|].
    intros name. rewrite Hm. cbn [omap list_omap].
    change (list_omap _ _ (λ r0 : gmap string value, r0 !! name) rs)
      with (omap (λ r0 : gmap string value, r0 !! name) rs).
    rewrite lookup_union.
    destruct (r !! name) as [v|] eqn:Hv.
    + destruct (omap (λ r0 : gmap string value, r0 !! name) rs) as [|w ws] eqn:Ho;
        [by destruct (m0 !! name)|].
      rewrite last_cons_cons.
      destruct (last (w :: ws)) eqn:El; [done|]. by apply last_None in El.
    + destruct (last _); [done|]. by destruct (m0 !! name).
Qed.

(** X: [raw_results] starts as [[mem_results]] and [measured_ctrs]
    empty.  After the runs have been measured, [raw_results] is
    [mem_results] followed by one result for each run, in order, and
    [measured_ctrs], which never sees [mem_results], binds a name to
    what the LAST run that reported it gave for it: the counter
    dictionary of an event measured in two runs is replaced, not
    merged. *)
Theorem gather_counters_last (calls : nat) (minimal_runs : list (list run_entry))
    (mem_results : gmap string value)
    (raw_results : list (gmap string value)) (measured_ctrs : gmap string value) :
  gather_counters perfctr_group calls minimal_runs [mem_results] ∅
  = Ok (raw_results, measured_ctrs) →
  ∃ rs : list (gmap string value),
    raw_results = mem_results :: rs ∧
    Forall2 (λ run r, ∃ i ctrs, event_group run = Ok ctrs ∧
                                perfctr_group i ctrs = Ok r) minimal_runs rs ∧
    ∀ name, measured_ctrs !! name = last (omap (λ r, r !! name) rs).
Proof.
  intros Hg. apply gather_counters_spec in Hg as (rs & -> & Hall & Hm).
  exists rs. split; [done|]. split; [done|].
  intros name. rewrite Hm, lookup_empty. by destruct (last _).
Qed.
End gather_facts.

Lemma gather_counters_last_witness :
  ∃ rs measured_ctrs,
    gather_counters counting_tool 1 five_runs [{[ "UOPS" := VFloat 0 ]}] ∅
    = Ok ({[ "UOPS" := VFloat 0 ]} :: rs, measured_ctrs) ∧
    length rs = length five_runs ∧
    measured_ctrs !! "UOPS" = last (omap (λ r, r !! "UOPS") rs).
Proof.
  destruct (gather_counters_last counting_tool 1 five_runs {[ "UOPS" := VFloat 0 ]}
              _ _ eq_refl) as (rs & Hraw & Hall & Hm).
  exists rs. eexists. rewrite <- Hraw. split; [reflexivity|].
  split; [symmetry; exact (Forall2_length _ _ _ Hall) | exact (Hm "UOPS")].
Defined.

(** ** Matching: what is left alone, and what goes wrong *)

Lemma match_registers_frame (measured_ctrs : gmap string value) (sym event : string)
    (regs : list (option string)) (fin : ending) (results results' : gmap string Z)
    (name : string) :
  match_registers measured_ctrs sym event regs fin results = Returned results' →
  name ≠ sym → results' !! name = results !! name.
Proof.
  revert results. induction regs as [|r regs IH]; intros results; simpl.
  - destruct fin; simpl; try done. by intros [= <-].
  - destruct (measured_ctrs !! event) as [[x|d]|]; try done.
    destruct (r ≫= (d !!.)); intros Hm Hne; rewrite (IH _ Hm Hne);
      [by rewrite lookup_insert_ne | done].
Qed.

(** X: the matching binds nothing but the symbols it is given: the
    binding of any other name is what it was before. *)
Theorem match_counters_frame (measured_ctrs : gmap string value)
    (event_counters : list (string * event_tpl)) (results results' : gmap string Z)
    (name : string) :
  match_counters measured_ctrs event_counters results = Returned results' →
  name ∉ event_counters.*1 →
  results' !! name = results !! name.
Proof.
  revert results. induction event_counters as [|[sym [[event regdescr] p]] ecs IH];
    intros results; cbn [match_counters].
  - by intros [= <-].
  - destruct (match_registers _ _ _ _ _ _) as [results1| |] eqn:Hm; try done.
    cbn [mbind outcome_bind]. rewrite fmap_cons, not_elem_of_cons.
    intros Hrest [Hne Hnin]. rewrite (IH _ Hrest Hnin).
    by apply (match_registers_frame _ _ _ _ _ _ _ _ Hm).
Qed.

Lemma match_counters_frame_witness :
  ∃ results' : gmap string Z,
    match_counters {[ "UOPS" := VCounters {[ "PMC0" := 3%Z ]} ]}
      [("s", ("UOPS", "PMC[0-1]", None))] {[ "t" := 5%Z ]} = Returned results' ∧
    results' !! "t" = Some 5%Z.
Proof.
  eexists. split; [vm_compute; reflexivity|].
  rewrite (match_counters_frame {[ "UOPS" := VCounters {[ "PMC0" := 3%Z ]} ]}
             [("s", ("UOPS", "PMC[0-1]", None))] {[ "t" := 5%Z ]} _ "t");
    [reflexivity | vm_compute; reflexivity|].
  intros Hin%list_elem_of_singleton. discriminate.
Defined.

(** X: a symbol whose event name is bound to a float (the name of a
    derived metric) stops the matching with [TypeError] as soon as its
    descriptor yields a candidate. *)
Theorem match_counters_metric (measured_ctrs : gmap string value)
    (sym event regdescr : string) (parameter : option params) (x : float)
    (event_counters : list (string * event_tpl)) (results : gmap string Z) :
  measured_ctrs !! event = Some (VFloat x) →
  yielded (register_options regdescr) ≠ [] →
  match_counters measured_ctrs ((sym, (event, regdescr, parameter)) :: event_counters)
    results
  = Raised TypeError.
Proof.
  intros Hev Hreg. cbn [match_counters].
  destruct (yielded (register_options regdescr)) as [|r regs]; [done|].
  simpl. by rewrite Hev.
Qed.

Lemma match_counters_metric_witness :
  match_counters {[ "CPI" := VFloat 2 ]} [("s", ("CPI", "PMC0", None))] ∅
  = Raised TypeError.
Proof.
  apply (match_counters_metric _ _ _ _ _ 2%float); [reflexivity | vm_compute; discriminate].
Defined.

(** ** Elimination of multiples, as a whole *)

(** X: [eliminate_multiples] keeps exactly one copy of every event:
    the result has no duplicates and the same members as the input; a
    list without duplicates is left as it is, and so is the result when
    it is de-duplicated again. *)
Theorem eliminate_multiples_spec {A : Type} `{EqDecision A} (events : list A) :
  NoDup (eliminate_multiples events) ∧
  (∀ e, e ∈ eliminate_multiples events ↔ e ∈ events) ∧
  (NoDup events → eliminate_multiples events = events) ∧
  eliminate_multiples (eliminate_multiples events) = eliminate_multiples events.
Proof.
  split; [apply NoDup_eliminate_multiples|].
  split; [intros e; apply elem_of_eliminate_multiples|].
  split; [|apply eliminate_multiples_idemp].
  induction 1 as [|x l Hx Hl IH]; [done|].
  rewrite eliminate_multiples_cons, IH. f_equal.
  clear IH Hl. induction l as [|y l IHl]; [done|].
  apply not_elem_of_cons in Hx as [Hne Hx].
  rewrite filter_cons, decide_True by congruence. f_equal. by apply IHl.
Qed.

(** ** Witnesses of earlier lemmas *)

Lemma perfctr_line_failure_witness :
  ∃ e, @perfctr_line numerals "A,1,2" ∅ = Raise e ∧ e = TypeError.
Proof.
  eexists. split; [vm_compute; reflexivity|].
  apply (@perfctr_line_failure numerals "A,1,2" ∅). vm_compute. reflexivity.
Defined.

Lemma build_minimal_runs_unplaceable_witness :
  build_minimal_runs 3 [("UOPS", "PMC0", None); unplaceable_event]
  ≠ Returned [[("UOPS", Some "PMC0", None)]].
Proof.
  apply (build_minimal_runs_unplaceable 3 _ unplaceable_event);
    [right; left | vm_compute; reflexivity].
Defined.

Lemma eliminate_multiples_spec_witness :
  eliminate_multiples [3; 1; 2] = [3; 1; 2].
Proof.
  apply (eliminate_multiples_spec [3; 1; 2]).
  by apply (bool_decide_unpack (NoDup [3; 1; 2])).
Defined.

(** ** The scheduler is first fit *)

Lemma dict_keys_unique {K V : Type} (d : list (K * V)) (k : K) (v v' : V) :
  NoDup (dict_keys d) → (k, v) ∈ d → (k, v') ∈ d → v = v'.
Proof.
  unfold dict_keys. induction d as [|[k0 v0] d IH]; [by intros _ ?%elem_of_nil|].
  rewrite fmap_cons, NoDup_cons. simpl. intros [Hk Hnd].
  assert (Hin : ∀ w, (k0, w) ∈ d → False).
  { intros w Hw. apply Hk. apply list_elem_of_fmap. by exists (k0, w). }
  rewrite !elem_of_cons. intros [Hv|Hv] [Hv'|Hv'].
  - congruence.
  - injection Hv as -> ->. by destruct (Hin v').
  - injection Hv' as -> ->. by destruct (Hin v).
  - by apply IH.
Qed.

Lemma dict_get_elem {K V : Type} `{EqDecision K} (d : list (K * V)) (k : K) (v : V) :
  dict_get k d = Some v → (k, v) ∈ d.
Proof.
  intros (d1 & d2 & -> & _)%dict_get_Some. apply elem_of_app. right. left.
Qed.

Lemma extends_refl (cur : nat) (runs : list (nat * run_dict)) : extends cur runs runs.
Proof. repeat split; try done. intros s Hs. by exists s. Qed.

Lemma extends_trans (cur : nat) (a b c : list (nat * run_dict)) :
  extends cur a b → extends cur b c → extends cur a c.
Proof.
  intros (A1 & A2 & A3) (B1 & B2 & B3). repeat split.
  - intros j s Hs Hj. apply A1; [|done]. by apply B1.
  - intros j s Hs Hj. apply B2; [|done]. by apply A2.
  - intros s Hs. destruct (A3 s Hs) as (s' & Hs' & Hsub).
    destruct (B3 s' Hs') as (s'' & Hs'' & Hsub'). exists s''. split; [done|].
    by transitivity s'.
Qed.

Lemma occupied_extends (cur bound : nat) (runs runs' : list (nat * run_dict))
    (e : event_tpl) :
  extends cur runs runs' → bound ≤ cur → occupied runs e bound → occupied runs' e bound.
Proof.
  intros (E1 & _ & _) Hb Hocc j s Hs Hj. apply (Hocc j s); [|done].
  apply E1; [done | lia].
Qed.

Lemma keys_subseteq (s s' : run_dict) (r : option string) :
  s ⊆ s' → r ∈ dict_keys s → r ∈ dict_keys s'.
Proof.
  intros Hsub ([r0 x] & -> & Hin)%list_elem_of_fmap.
  apply list_elem_of_fmap. exists (r0, x). split; [done|]. by apply Hsub.
Qed.

Lemma stuck_extends (cur : nat) (runs runs' : list (nat * run_dict)) (e : event_tpl) :
  extends cur runs runs' → stuck cur runs e → stuck cur runs' e.
Proof.
  intros Hext [Hocc Hcur]. split; [by eapply occupied_extends|].
  destruct Hcur as [Hnil|(s & Hs & Hall)]; [by left|]. right.
  destruct Hext as (_ & _ & E3). destruct (E3 s Hs) as (s' & Hs' & Hsub).
  exists s'. split; [done|]. intros r' Hr'. eapply keys_subseteq; eauto.
Qed.

Lemma placed_extends (cur : nat) (runs runs' : list (nat * run_dict))
    (a : event_tpl * option string * nat) :
  extends cur runs runs' → a.2 ≤ cur → placed runs a → placed runs' a.
Proof.
  intros Hext Ha (s & pre & post & Hs & Hentry & Hc & Hpre & Hocc).
  assert (Hocc' : occupied runs' a.1.1 a.2) by (by eapply occupied_extends).
  destruct Hext as (E1 & E2 & E3).
  destruct (decide (a.2 = cur)) as [Heq|Hne].
  - rewrite Heq in Hs. destruct (E3 s Hs) as (s' & Hs' & Hsub).
    exists s', pre, post. rewrite Heq. repeat split; try done.
    + by apply Hsub.
    + intros r' Hr'. eapply keys_subseteq; eauto.
    + by rewrite <- Heq.
  - exists s, pre, post. repeat split; try done. by apply E2.
Qed.

Lemma stuck_occupied (cur : nat) (runs : list (nat * run_dict)) (e : event_tpl) :
  NoDup (dict_keys runs) → stuck cur runs e → occupied runs e (S cur).
Proof.
  intros Hnd [Hocc Hcur] j s Hs Hj r' Hr'.
  destruct (decide (j = cur)) as [->|Hne]; [|apply (Hocc j s); [done|lia|done]].
  destruct Hcur as [Hnil|(s0 & Hs0 & Hall)].
  - rewrite Hnil in Hr'. by apply elem_of_nil in Hr'.
  - rewrite (dict_keys_unique _ _ _ _ Hnd Hs Hs0). by apply Hall.
Qed.

(** The two ways a placement changes the runs. *)
Lemma place_shape (cur : nat) (runs : list (nat * run_dict)) (r : option string)
    (x : run_entry) :
  let runs1 := dict_setdefault cur [] runs in
  let s0 := default [] (dict_get cur runs1) in
  r ∉ dict_keys s0 →
  (∃ d1 d2, runs = d1 ++ (cur, s0) :: d2 ∧ (cur ∉ dict_keys d1) ∧
            dict_get cur runs = Some s0 ∧
            dict_set cur (dict_set r x s0) runs1 = d1 ++ (cur, s0 ++ [(r, x)]) :: d2) ∨
  (dict_get cur runs = None ∧ s0 = [] ∧
   dict_set cur (dict_set r x s0) runs1 = runs ++ [(cur, [(r, x)])]).
Proof.
  intros runs1 s0 Hfree. subst runs1 s0. unfold dict_setdefault in *.
  destruct (dict_get cur runs) as [s|] eqn:Hget.
  - left. rewrite Hget in *. simpl in *.
    destruct (dict_get_Some _ _ _ Hget) as (d1 & d2 & -> & Hd1).
    exists d1, d2. rewrite dict_set_known by done. rewrite dict_set_fresh by done.
    done.
  - right. apply dict_get_None in Hget as Hfresh.
    rewrite dict_get_app_fresh by done. simpl.
    by rewrite (dict_set_known cur _ [] runs []) by done.
Qed.

Lemma sorted_keys_place (cur : nat) (runs : list (nat * run_dict)) (s : run_dict) :
  StronglySorted lt (dict_keys runs) →
  Forall (λ k, k < S cur) (dict_keys runs) →
  cur ∉ dict_keys runs →
  StronglySorted lt (dict_keys (runs ++ [(cur, s)])).
Proof.
  intros Hs Hb Hn. unfold dict_keys in *. rewrite fmap_app. simpl.
  apply StronglySorted_app. split; [|split; [done | repeat constructor]].
  intros k1 k2 Hk1 ->%list_elem_of_singleton.
  rewrite Forall_forall in Hb. specialize (Hb k1 Hk1). simpl in Hb.
  assert (k1 ≠ cur) by (intros ->; done). lia.
Qed.

Lemma try_registers_first_fit (cur : nat) (e : event_tpl)
    (pre regs : list (option string)) (fin : ending)
    (runs : list (nat * run_dict)) (sched : list event_tpl) (st' : sched_state) :
  sched_inv (S cur) (runs, sched) →
  StronglySorted lt (dict_keys runs) →
  yielded (register_options e.1.2) = pre ++ regs →
  (∀ r', r' ∈ pre → ∃ s, dict_get cur runs = Some s ∧ r' ∈ dict_keys s) →
  occupied runs e cur →
  try_registers cur e regs fin (runs, sched) = Returned st' →
  extends cur runs st'.1 ∧ StronglySorted lt (dict_keys st'.1) ∧
  ((st' = (runs, sched) ∧
    ∀ r', r' ∈ pre ++ regs → ∃ s, dict_get cur runs = Some s ∧ r' ∈ dict_keys s) ∨
   (st'.2 = sched ++ [e] ∧ ∃ r, placed st'.1 (e, r, cur))).
Proof.
  intros Hinv Hsorted. revert pre.
  induction regs as [|r regs IH]; intros pre Hc Hpre Hocc; cbn [try_registers].
  - destruct fin; simpl; try done. intros [= <-].
    split; [apply extends_refl|]. split; [done|]. left. by rewrite app_nil_r.
  - destruct e as [[event registers] parameters].
    destruct (decide (r ∈ _)) as [Hin|Hfree].
    + destruct (dict_get cur runs) as [s|] eqn:Hget.
      * assert (Hsame : dict_setdefault cur [] runs = runs)
          by (unfold dict_setdefault; by rewrite Hget).
        rewrite Hsame in Hin |- *. rewrite Hget in Hin. simpl in Hin.
        intros Htry.
        assert (Hc' : yielded (register_options (event, registers, parameters).1.2)
                      = (pre ++ [r]) ++ regs) by (by rewrite Hc, <- app_assoc).
        assert (Hpre' : ∀ r', r' ∈ pre ++ [r] →
                  ∃ s0, Some s = Some s0 ∧ r' ∈ dict_keys s0).
        { intros r' [Hr'| ->%list_elem_of_singleton]%elem_of_app; [by apply Hpre|].
          by exists s. }
        destruct (IH (pre ++ [r]) Hc' Hpre' Hocc Htry) as (Hext & Hs' & Hcase).
        split; [exact Hext|]. split; [exact Hs'|].
        destruct Hcase as [[-> Hall]|Hplaced]; [left|by right].
        split; [done|]. intros r' Hr'. apply Hall. by rewrite <- app_assoc.
      * exfalso. unfold dict_setdefault in Hin. rewrite Hget in Hin.
        apply dict_get_None in Hget. rewrite dict_get_app_fresh in Hin by done.
        simpl in Hin. by apply elem_of_nil in Hin.
    + intros [= <-]. cbn [fst snd].
      destruct (place_shape cur runs r (event, r, parameters) Hfree)
        as [(d1 & d2 & Hruns & Hd1 & Hget & ->)|(Hget & Hs0 & ->)].
      * set (s0 := default [] (dict_get cur (dict_setdefault cur [] runs))) in *.
        assert (Hnd : NoDup (dict_keys runs)) by apply Hinv.
        assert (Hext : extends cur runs (d1 ++ (cur, s0 ++ [(r, (event, r, parameters))]) :: d2)).
        { rewrite Hruns. repeat split.
          - intros j s. rewrite !elem_of_app, !elem_of_cons.
            intros [?|[[= ]|?]] Hj; auto; congruence.
          - intros j s. rewrite !elem_of_app, !elem_of_cons.
            intros [?|[[= ]|?]] Hj; auto; congruence.
          - intros s Hs. exists (s0 ++ [(r, (event, r, parameters))]).
            split; [apply elem_of_app; right; left|].
            assert (s = s0) as ->.
            { apply (dict_keys_unique runs cur); [done|by rewrite Hruns|].
              rewrite Hruns. apply elem_of_app. right. left. }
            intros y Hy. apply elem_of_app. by left. }
        split; [done|]. split.
        { unfold dict_keys in *. rewrite Hruns in Hsorted.
          by rewrite fmap_app, fmap_cons in *. }
        right. split; [done|]. exists r.
        exists (s0 ++ [(r, (event, r, parameters))]), pre, regs.
        repeat split; try done.
        -- apply elem_of_app. right. left.
        -- apply elem_of_app. right. by apply list_elem_of_singleton.
        -- intros r' Hr'. destruct (Hpre r' Hr') as (s & Hs & Hk).
           rewrite Hget in Hs. injection Hs as <-.
           eapply keys_subseteq; [|exact Hk]. intros y Hy. apply elem_of_app. by left.
        -- by eapply occupied_extends.
      * assert (Hfresh : cur ∉ dict_keys runs) by (by apply dict_get_None).
        assert (Hext : extends cur runs (runs ++ [(cur, [(r, (event, r, parameters))])])).
        { repeat split.
          - intros j s [?|[= ]%list_elem_of_singleton]%elem_of_app Hj; [done|congruence].
          - intros j s Hs Hj. apply elem_of_app. by left.
          - intros s Hs. exfalso. apply Hfresh. apply list_elem_of_fmap.
            by exists (cur, s). }
        split; [done|]. split.
        { apply sorted_keys_place; [done|apply Hinv|done]. }
        right. split; [done|]. exists r.
        exists [(r, (event, r, parameters))], pre, regs.
        repeat split; try done.
        -- apply elem_of_app. right. left.
        -- left.
        -- intros r' Hr'. destruct (Hpre r' Hr') as (s & Hs & _). congruence.
        -- by eapply occupied_extends.
Qed.

Lemma try_registers_loop_inv (events : list event_tpl) (cur : nat) (e : event_tpl)
    (st st' : sched_state) :
  e ∈ events → e ∉ st.2 →
  loop_inv events (S cur) st →
  try_registers cur e (yielded (register_options e.1.2))
    (finish (register_options e.1.2)) st = Returned st' →
  loop_inv events (S cur) st' ∧ st.2 ⊆ st'.2.
Proof.
  intros He Hnew (Hs & Hnd & Hsub) Etry.
  destruct (try_registers_inv _ _ _ _ _ _ Hs (candidates_yielded e) Etry)
    as [Hs1 [->|Heq]]; [done|].
  split; [split; [done|rewrite Heq; split]|rewrite Heq].
  - apply NoDup_app. split; [done|]. split; [|apply NoDup_singleton].
    by intros x Hx ->%list_elem_of_singleton.
  - intros x [Hx| ->%list_elem_of_singleton]%elem_of_app; auto.
  - intros x Hx. apply elem_of_app. by left.
Qed.

Lemma placed_below (bound : nat) (st : sched_state)
    (a : event_tpl * option string * nat) :
  sched_inv bound st → placed st.1 a → a.2 < bound.
Proof.
  intros [_ Hbelow _ _] (s & _ & _ & Hs & _).
  rewrite Forall_forall in Hbelow. apply (Hbelow a.2).
  apply list_elem_of_fmap. by exists (a.2, s).
Qed.

(** One sweep at run index [cur]: the events scheduled so far stay
    where they are, and an event of the sweep that is still unscheduled
    after it found every candidate register taken. *)
Lemma sweep_first_fit (events l : list event_tpl) (cur : nat) (st st' : sched_state) :
  l ⊆ events →
  loop_inv events (S cur) st →
  StronglySorted lt (dict_keys st.1) →
  (∀ e, e ∈ st.2 → ∃ r j, placed st.1 (e, r, j)) →
  (∀ e, e ∈ events → e ∉ st.2 → occupied st.1 e cur) →
  sweep cur l st = Returned st' →
  extends cur st.1 st'.1 ∧ st.2 ⊆ st'.2 ∧
  StronglySorted lt (dict_keys st'.1) ∧
  (∀ e, e ∈ st'.2 → ∃ r j, placed st'.1 (e, r, j)) ∧
  (∀ e, e ∈ l → e ∉ st'.2 → stuck cur st'.1 e).
Proof.
  revert st. induction l as [|e l IH]; intros st Hl Hinv Hsorted Hplaced Hocc;
    cbn [sweep].
  - intros [= <-]. split; [apply extends_refl|]. do 3 (split; [done|]).
    by intros e ?%elem_of_nil.
  - assert (Hl' : l ⊆ events) by (intros x Hx; apply Hl; by right).
    assert (He : e ∈ events) by (apply Hl; left).
    destruct (decide (e ∈ st.2)) as [Hin|Hnew].
    + intros Hsw.
      destruct (IH st Hl' Hinv Hsorted Hplaced Hocc Hsw)
        as (Hext & Hsub & Hs' & Hp' & Hstuck).
      do 4 (split; [done|]).
      intros x [->|Hx]%elem_of_cons Hnx; [|by apply Hstuck].
      exfalso. by apply Hnx, Hsub.
    + destruct (try_registers _ _ _ _ _) as [st1| |] eqn:Etry; simpl; try done.
      intros Hsw.
      destruct (try_registers_loop_inv _ _ _ _ _ He Hnew Hinv Etry) as [Hinv1 Hsub1].
      destruct st as [runs sched]. cbn [fst snd] in *.
      assert (Hvac : ∀ r', r' ∈ [] →
                ∃ s, dict_get cur runs = Some s ∧ r' ∈ dict_keys s)
        by (by intros r' ?%elem_of_nil).
      destruct (try_registers_first_fit cur e [] _ _ runs sched st1
                  (proj1 Hinv) Hsorted eq_refl Hvac (Hocc e He Hnew) Etry)
        as (Hext1 & Hs1 & Hcase).
      assert (Hplaced1 : ∀ x, x ∈ st1.2 → ∃ r j, placed st1.1 (x, r, j)).
      { destruct Hcase as [[-> _]|[Heq (r & Hr)]]; [done|].
        rewrite Heq. intros x [Hx| ->%list_elem_of_singleton]%elem_of_app; [|eauto].
        destruct (Hplaced x Hx) as (r0 & j & Hp). exists r0, j.
        eapply placed_extends; [exact Hext1| |exact Hp].
        apply (placed_below (S cur) (runs, sched)) in Hp; [|apply Hinv].
        simpl in *. lia. }
      assert (Hocc1 : ∀ x, x ∈ events → x ∉ st1.2 → occupied st1.1 x cur).
      { intros x Hx Hnx. eapply occupied_extends; [exact Hext1|done|].
        apply Hocc; [done|]. intros Hxs. by apply Hnx, Hsub1. }
      destruct (IH st1 Hl' Hinv1 Hs1 Hplaced1 Hocc1 Hsw)
        as (Hext & Hsub & Hs' & Hp' & Hstuck).
      split; [by eapply extends_trans|]. split; [by transitivity st1.2|].
      do 2 (split; [done|]).
      intros x [->|Hx]%elem_of_cons Hnx; [|by apply Hstuck].
      destruct Hcase as [[-> Hall]|[Heq _]].
      * eapply stuck_extends; [exact Hext|]. split; [by apply Hocc|].
        cbn [app] in Hall.
        destruct (yielded (register_options e.1.2)) as [|r0 regs]; [by left|right].
        destruct (Hall r0) as (s & Hget & _); [left|].
        exists s. split; [by apply dict_get_elem|].
        intros r' Hr'. destruct (Hall r' Hr') as (s2 & Hget2 & Hk). congruence.
      * exfalso. apply Hnx, Hsub. rewrite Heq. apply elem_of_app. right. left.
Qed.

(** The loop as a whole: every scheduled event is placed first fit. *)
Lemma schedule_loop_first_fit (events : list event_tpl) (fuel cur : nat)
    (st st' : sched_state) :
  loop_inv events cur st →
  StronglySorted lt (dict_keys st.1) →
  (∀ e, e ∈ st.2 → ∃ r j, placed st.1 (e, r, j)) →
  (∀ e, e ∈ events → e ∉ st.2 → occupied st.1 e cur) →
  schedule_loop fuel events cur st = Returned st' →
  StronglySorted lt (dict_keys st'.1) ∧
  (∀ e, e ∈ st'.2 → ∃ r j, placed st'.1 (e, r, j)).
Proof.
  revert cur st. induction fuel as [|fuel IH]; intros cur st Hinv Hsorted Hplaced Hocc;
    simpl;
    (destruct (decide (length st.2 = length events)) as [Hlen|Hlen];
     [intros [= <-]; done | try done]).
  destruct (sweep cur events st) as [st1| |] eqn:Esw; simpl; try done.
  apply (loop_inv_weaken _ _ (S cur)) in Hinv; [|lia].
  destruct (sweep_first_fit events events cur st st1) as (_ & _ & Hs1 & Hp1 & Hstuck);
    try done.
  destruct (sweep_inv events events cur st st1) as [Hinv1 _]; try done.
  apply IH; try done.
  intros e He Hne. apply stuck_occupied; [apply Hinv1|]. by apply Hstuck.
Qed.

Lemma sorted_lookup_lt (l : list nat) (k i a b : nat) :
  StronglySorted lt l → k < i → l !! k = Some a → l !! i = Some b → a < b.
Proof.
  revert k i. induction l as [|x l IH]; intros k i Hs Hki Hk Hi; [done|].
  apply StronglySorted_cons in Hs as [Hx Hs].
  destruct i as [|i]; [lia|]. destruct k as [|k]; simpl in *.
  - injection Hk as ->. by eapply (Forall_lookup_1 _ l i b) in Hx.
  - eapply (IH k i); [done|lia|done|done].
Qed.

Lemma run_ok_keys (s : run_dict) : run_ok s → register_of <$> dict_values s = dict_keys s.
Proof.
  intros (_ & _ & Hreg). unfold dict_values, dict_keys.
  induction Hreg as [|[k en] s Hk Hs IH]; [done|].
  rewrite !fmap_cons, IH. unfold register_of. simpl in *. by rewrite Hk.
Qed.

(** From run indices to positions in the list of runs. *)
Lemma placed_first_fit (runs : list (nat * run_dict)) (e : event_tpl)
    (r : option string) (j : nat) :
  Forall run_ok (dict_values runs) →
  StronglySorted lt (dict_keys runs) →
  placed runs (e, r, j) →
  ∃ i, first_fit (dict_values <$> dict_values runs) (e, r, i).
Proof.
  intros Hok Hsorted (s & pre & post & Hs & Hentry & Hc & Hpre & Hocc).
  cbn [fst snd] in *.
  apply list_elem_of_lookup in Hs as [i Hi]. exists i.
  assert (Hrun : ∀ k j' s', runs !! k = Some (j', s') →
            (dict_values <$> dict_values runs) !! k = Some (dict_values s') ∧
            register_of <$> dict_values s' = dict_keys s').
  { intros k j' s' Hk. unfold dict_values at 2. rewrite !list_lookup_fmap, Hk.
    split; [done|]. apply run_ok_keys.
    rewrite Forall_forall in Hok. apply Hok. apply list_elem_of_fmap.
    exists (j', s'). split; [done|]. by eapply list_elem_of_lookup_2. }
  destruct (Hrun i j s Hi) as [Hlook Hkeys].
  exists (dict_values s), pre, post. cbn [fst snd].
  split; [done|]. split.
  { apply list_elem_of_fmap. by exists (r, entry_of (e, r)). }
  split; [done|]. split.
  { intros r' Hr'. rewrite Hkeys. by apply Hpre. }
  intros k run_k r' Hki Hk Hr'.
  destruct (runs !! k) as [[j' s']|] eqn:Ek.
  - destruct (Hrun k j' s' Ek) as [Hlook' Hkeys'].
    rewrite Hlook' in Hk. injection Hk as <-. rewrite Hkeys'.
    apply (Hocc j' s'); [by eapply list_elem_of_lookup_2| |done].
    apply (sorted_lookup_lt (dict_keys runs) k i); try done;
      unfold dict_keys; rewrite list_lookup_fmap; [by rewrite Ek | by rewrite Hi].
  - exfalso. unfold dict_values in Hk at 2. by rewrite !list_lookup_fmap, Ek in Hk.
Qed.

(** X: the scheduler is first fit.  When [build_minimal_runs]
    returns, every event of the input sits in some run of the result on
    a register [r] of its descriptor such that the candidate registers
    which the descriptor lists before [r] are taken in that run, and all
    its candidate registers are taken in every earlier run. *)
Theorem build_minimal_runs_first_fit (fuel : nat) (events : list event_tpl)
    (runs : list (list run_entry)) (e : event_tpl) :
  build_minimal_runs fuel events = Returned runs →
  e ∈ events →
  ∃ r i, first_fit runs (e, r, i).
Proof.
  intros Hret He.
  destruct (build_minimal_runs_inv _ _ _ Hret)
    as (st & bound & Hloop & -> & (Hs & Hnd & Hsub) & Hlen).
  assert (Hnone : ∀ x : event_tpl, x ∈ [] → ∃ r j, placed [] (x, r, j))
    by (by intros x ?%elem_of_nil).
  assert (Hfree : ∀ x : event_tpl, x ∈ eliminate_multiples events → x ∉ [] →
            occupied [] x 0) by (by intros x _ _ j s ?%elem_of_nil).
  destruct (schedule_loop_first_fit _ _ _ _ _
              (conj sched_inv_init (conj (NoDup_nil_2) (list_subseteq_nil _)))
              (SSorted_nil _) Hnone Hfree Hloop) as [Hsorted Hplaced].
  assert (Hperm : st.2 ≡ₚ eliminate_multiples events).
  { apply submseteq_length_Permutation; [by apply NoDup_submseteq | lia]. }
  assert (Hin : e ∈ st.2).
  { rewrite Hperm. by apply elem_of_eliminate_multiples. }
  destruct (Hplaced e Hin) as (r & j & Hp). exists r.
  eapply placed_first_fit; [apply Hs|done|exact Hp].
Qed.

Lemma build_minimal_runs_first_fit_witness :
  build_minimal_runs 3 five_events = Returned five_runs ∧
  ("L2_TRANS", "PMC[0-1]", None) ∈ five_events ∧
  ∃ r i, first_fit five_runs (("L2_TRANS", "PMC[0-1]", None), r, i).
Proof.
  assert (Hruns : build_minimal_runs 3 five_events = Returned five_runs)
    by (vm_compute; reflexivity).
  assert (Hin : ("L2_TRANS", "PMC[0-1]", None) ∈ five_events)
    by (do 3 right; left).
  split; [exact Hruns|]. split; [exact Hin|].
  exact (build_minimal_runs_first_fit 3 five_events five_runs _ Hruns Hin).
Defined.
